(** * Antimeridian splitting of polygons: a shallow embedding of
      [split_polygons.py] and the properties of its specification.

    Longitudes and latitudes are Python floats in the source.  The code is
    embedded twice.  The first embedding computes with exact rationals [Q]:
    comparisons, [abs], sign and the translations by 360 degrees are the ones
    the source performs, without rounding; it carries the properties of the
    control flow and of the order of longitudes.  The second embedding,
    module [B64], is the same code over binary64 floats and carries the
    properties that depend on rounding.  A Python exception is a value of
    [PyError]; a function that may raise returns a [result]. *)

From Stdlib Require Import QArith Qabs Lqa ZArith List Bool Floats Uint63.
From stdpp Require Import base gmap strings.
Import ListNotations.

Local Open Scope Q_scope.

(** ** Rationals as the source compares them *)

(** [x < y] and [x > y] of the source, as booleans. *)
Definition Qltb (x y : Q) : bool := negb (Qle_bool y x).
Definition Qgtb (x y : Q) : bool := Qltb y x.

(** ** Exceptions *)

Inductive PyError : Type :=
| ValueError_longitudes      (* raise ValueError("longitudes must be in degrees ...") *)
| NotImplementedError_split  (* raise NotImplementedError("Splitting a Polygon by multiple meridians ...") *)
| TypeError_None             (* ring_minx < shell_minx while shell_minx is None *)
| ValueError_unpack          (* shell, *holes = [] *)
| UnboundLocalError_split    (* _split read before any assignment *)
| GeometryError.             (* the split primitive of the geometry engine rejects its input *)

Inductive result (A : Type) : Type :=
| Ok (a : A)
| Raise (e : PyError).
Arguments Ok {A} a.
Arguments Raise {A} e.

#[global] Instance result_ret : MRet result := fun A a => Ok a.
#[global] Instance result_bind : MBind result := fun A B f m =>
  match m with
  | Ok a => f a
  | Raise e => Raise e
  end.

(** ** Geometry values

    A polygon is its coordinate array, as [mapping] gives it: the shell ring
    first, then the holes.  [Polygon(shell, holes)] is [shell :: holes]; the
    empty polygon is [[]]. *)

Definition Coord : Type := Q * Q.
Abbreviation Ring := (list Coord).
Abbreviation Polygon := (list (list Coord)).
Abbreviation GeometryCollection := (list (list (list Coord))).

(** The three capabilities taken from the geometry engine. *)

(** [affinity.translate(polygon, xoff)]. *)
Definition translate_coord (xoff : Q) (c : Coord) : Coord := (fst c + xoff, snd c).
Definition translate_ring (xoff : Q) (r : Ring) : Ring := map (translate_coord xoff) r.
Definition translate (xoff : Q) (p : Polygon) : Polygon := map (translate_ring xoff) p.

(** Running minimum and maximum of the longitudes. *)
Definition lower (m x : Q) : Q := if Qltb x m then x else m.
Definition upper (m x : Q) : Q := if Qgtb x m then x else m.

Fixpoint lon_range (minx maxx : Q) (r : Ring) : Q * Q :=
  match r with
  | [] => (minx, maxx)
  | c :: tl => lon_range (lower minx (fst c)) (upper maxx (fst c)) tl
  end.

Definition ring_bounds (r : Ring) : option (Q * Q) :=
  match r with
  | [] => None
  | c :: tl => Some (lon_range (fst c) (fst c) tl)
  end.

(** [polygon.bounds], the longitudes only: the envelope of a polygon is the
    envelope of its shell; an empty geometry has none (its bounds are NaN,
    and every comparison with them is false). *)
Definition bounds (p : Polygon) : option (Q * Q) :=
  match p with
  | [] => None
  | shell :: _ => ring_bounds shell
  end.

Definition join_bounds (a b : option (Q * Q)) : option (Q * Q) :=
  match a, b with
  | Some (a1, a2), Some (b1, b2) => Some (lower a1 b1, upper a2 b2)
  | Some x, None => Some x
  | None, y => y
  end.

(** [geometry_collection.bounds]: the union of the members' envelopes. *)
Definition collection_bounds (gc : GeometryCollection) : option (Q * Q) :=
  fold_left (fun acc p => join_bounds acc (bounds p)) gc None.

(** ** [check_crossing] *)

Definition dlon_threshold_default : Q := 180.

Definition check_crossing (lon1 lon2 : Q) (validate : bool) (dlon_threshold : Q)
  : result bool :=
  if validate && existsb (fun x => Qgtb (Qabs x) 180) [lon1; lon2]
  then Raise ValueError_longitudes
  else Ok (Qgtb (Qabs (lon2 - lon1)) dlon_threshold).

(** ** [translate_polygons] *)

Definition translate_polygon (polygon : Polygon) : Polygon :=
  match bounds polygon with
  | Some (minx, maxx) =>
      if Qltb minx (-180) then translate 360 polygon
      else if Qgtb maxx 180 then translate (-360) polygon
      else polygon
  | None => polygon
  end.

Definition translate_polygons (geometry_collection : GeometryCollection)
  : GeometryCollection :=
  map translate_polygon geometry_collection.

(** ** [split_polygon] *)

(** [math.copysign(1, x)]. *)
Definition copysign1 (x : Q) : Q := if Qle_bool 0 x then 1 else -1.

(** The inner loop, over [ring[1:]].  [lon_prev] is the longitude of the
    previous vertex as already shifted in [coords_shift]; [lon] is read from
    the vertex before it is shifted.  Returns the shifted vertices, the
    running bounds and the number of crossings. *)
Fixpoint unwrap_tail (validate : bool) (lon_prev ring_minx ring_maxx : Q)
    (crossings : nat) (rest : Ring) : result (Ring * (Q * Q) * nat) :=
  match rest with
  | [] => Ok ([], (ring_minx, ring_maxx), crossings)
  | (lon, lat) :: tl =>
      crossed ← check_crossing lon lon_prev validate dlon_threshold_default;
      let direction := copysign1 (lon - lon_prev) in
      let x_shift := if (crossed : bool) then lon - direction * 360 else lon in
      let crossings := if crossed then S crossings else crossings in
      let ring_minx := lower ring_minx x_shift in
      let ring_maxx := upper ring_maxx x_shift in
      '(tl', b, n) ← unwrap_tail validate x_shift ring_minx ring_maxx crossings tl;
      Ok ((x_shift, lat) :: tl', b, n)
  end.

(** One non-empty ring through the inner loop. *)
Definition unwrap_ring (validate : bool) (first : Coord) (rest : Ring)
  : result (Ring * (Q * Q) * nat) :=
  '(tl', b, n) ← unwrap_tail validate (fst first) (fst first) (fst first) 0%nat rest;
  Ok (first :: tl', b, n).

(** What the outer loop carries from ring to ring. *)
Record split_state : Type := {
  shell_x : option (Q * Q);        (* shell_minx, shell_maxx; None before the shell *)
  split_meridians : gset Z
}.

(** Lines 93-102: the shell sets the frame, a hole is moved into it. *)
Definition align (ring_index : nat) (shell : option (Q * Q)) (ring : Ring) (b : Q * Q)
  : result (Ring * (Q * Q) * option (Q * Q)) :=
  let '(ring_minx, ring_maxx) := b in
  if Nat.eqb ring_index 0 then Ok (ring, b, Some b)
  else match shell with
       | None => Raise TypeError_None
       | Some (shell_minx, shell_maxx) =>
           if Qltb ring_minx shell_minx
           then Ok (translate_ring 360 ring, (ring_minx + 360, ring_maxx + 360), shell)
           else if Qgtb ring_maxx shell_maxx
           then Ok (translate_ring (-360) ring, (ring_minx - 360, ring_maxx - 360), shell)
           else Ok (ring, b, shell)
       end.

(** Lines 104-108. *)
Definition mark (crossings : nat) (b : Q * Q) (marks : gset Z) : gset Z :=
  if Nat.eqb crossings 0 then marks
  else
    let marks := if Qltb (fst b) (-180) then {[ (-180)%Z ]} ∪ marks else marks in
    if Qgtb (snd b) 180 then {[ 180%Z ]} ∪ marks else marks.

(** The body of the outer loop for one ring. *)
Definition normalize_ring (validate : bool) (ring_index : nat) (ring : Ring)
    (st : split_state) : result (Ring * split_state) :=
  match ring with
  | [] => Ok ([], st)
  | first :: rest =>
      '(ring', b, crossings) ← unwrap_ring validate first rest;
      '(ring'', b', shell) ← align ring_index (shell_x st) ring' b;
      Ok (ring'', {| shell_x := shell;
                     split_meridians := mark crossings b' (split_meridians st) |})
  end.

(** The outer loop, lines 74-108: [coords_shift] and the final state. *)
Fixpoint normalize_rings (validate : bool) (ring_index : nat) (rings : list Ring)
    (st : split_state) : result (list Ring * split_state) :=
  match rings with
  | [] => Ok ([], st)
  | ring :: tl =>
      '(ring', st') ← normalize_ring validate ring_index ring st;
      '(tl', st'') ← normalize_rings validate (S ring_index) tl st';
      Ok (ring' :: tl', st'')
  end.

Definition initial_state : split_state :=
  {| shell_x := None; split_meridians := ∅ |}.

Section SplitPrimitive.

(** [ops.split(polygon, LineString([[lon, -90], [lon, 90]]))] of the
    geometry engine: the fragments, or nothing when it rejects the
    geometry. *)
Variable ops_split : Polygon -> Q -> option GeometryCollection.

Definition split_polygon (_polygon : Polygon) (validate : bool)
  : result GeometryCollection :=
  '(coords_shift, st) ← normalize_rings validate 0 _polygon initial_state;
  let n_splits := size (split_meridians st) in
  if Nat.ltb 1 n_splits then Raise NotImplementedError_split
  else
    let splitter := if Nat.eqb n_splits 1 then head (elements (split_meridians st))
                    else None in
    match splitter with
    | Some split_lon =>
        match coords_shift with
        | [] => Raise ValueError_unpack
        | shell :: holes =>
            match ops_split (shell :: holes) (inject_Z split_lon) with
            | Some split_polygons => Ok (translate_polygons split_polygons)
            | None => Raise GeometryError
            end
        end
    | None =>
        match _polygon with
        | [] => Raise ValueError_unpack
        | shell :: holes => Ok (translate_polygons [shell :: holes])
        end
    end.

(** [split_multipolygon]: the per-polygon call leaves [validate] at its
    default. *)
Fixpoint split_multipolygon (_multipolygon : GeometryCollection)
  : result GeometryCollection :=
  match _multipolygon with
  | [] => Ok []
  | _polygon :: tl =>
      r ← split_polygon _polygon false;
      rest ← split_multipolygon tl;
      Ok (r ++ rest)
  end.

End SplitPrimitive.

(** ** [wrap_polygons] *)

(** [maxx - minx]; no number when the collection is empty (NaN). *)
Definition difference (b : option (Q * Q)) : option Q :=
  match b with
  | Some (minx, maxx) => Some (maxx - minx)
  | None => None
  end.

(** [a < b] on such widths: false as soon as one of them is NaN. *)
Definition difference_ltb (a b : option Q) : bool :=
  match a, b with
  | Some x, Some y => Qltb x y
  | _, _ => false
  end.

(** The loop body of lines 154-159. *)
Definition wrap_polygon (_polygon : Polygon) : Polygon :=
  match bounds _polygon with
  | Some (minx, _) => if Qltb minx 0 then translate 360 _polygon else _polygon
  | None => _polygon
  end.

(** The candidate [transformed]. *)
Definition transformed (geometry_collection : GeometryCollection) : GeometryCollection :=
  map wrap_polygon geometry_collection.

(** Returns the chosen collection and what was printed. *)
Definition wrap_polygons (geometry_collection : GeometryCollection) (verbose : bool)
  : GeometryCollection * list string :=
  let initial_difference := difference (collection_bounds geometry_collection) in
  let transformed_difference :=
    difference (collection_bounds (transformed geometry_collection)) in
  if difference_ltb transformed_difference initial_difference
  then (transformed geometry_collection,
        if verbose then ["Wrapped polygons to reduce footprint"%string] else [])
  else (geometry_collection, []).

(** ** [splitter] *)

(** The top-level input: the two geometry types the dispatcher tests for,
    and any other geometry, of which only the type name matters. *)
Inductive Geometry : Type :=
| GPolygon (p : Polygon)
| GMultiPolygon (mp : GeometryCollection)
| GOther (geom_type : string).

(** The two [if]s of lines 173-176: [_split] is assigned by the one that
    matches the type of the input, and stays unbound when neither does. *)
Definition dispatch (ops_split : Polygon -> Q -> option GeometryCollection)
    (geometry_collection : Geometry) : result (option GeometryCollection) :=
  _split ← match geometry_collection with
           | GMultiPolygon mp => r ← split_multipolygon ops_split mp; Ok (Some r)
           | _ => Ok None
           end;
  match geometry_collection with
  | GPolygon p => r ← split_polygon ops_split p false; Ok (Some r)
  | _ => Ok _split
  end.

Definition splitter (ops_split : Polygon -> Q -> option GeometryCollection)
    (geometry_collection : Geometry) (verbose : bool)
  : result (GeometryCollection * list string) :=
  _split ← dispatch ops_split geometry_collection;
  match _split with
  | Some _split => Ok (wrap_polygons _split verbose)
  | None => Raise UnboundLocalError_split
  end.

(** ** Planar area (shoelace formula), used to state area preservation *)

Fixpoint shoelace (prev : Coord) (rest : Ring) : Q :=
  match rest with
  | [] => 0
  | cur :: tl => (fst prev * snd cur - fst cur * snd prev) + shoelace cur tl
  end.

(** The ring is closed by an edge back to its first vertex (of length zero
    when the ring is closed already). *)
Definition ring_area (r : Ring) : Q :=
  match r with
  | [] => 0
  | first :: tl => Qabs (shoelace first (tl ++ [first])) / 2
  end.

Definition area (p : Polygon) : Q :=
  match p with
  | [] => 0
  | shell :: holes => ring_area shell - fold_right (fun h acc => ring_area h + acc) 0 holes
  end.

Definition total_area (gc : GeometryCollection) : Q :=
  fold_right (fun p acc => area p + acc) 0 gc.

(** ** A split primitive for convex shells

    Clips a hole-free convex shell on both sides of a meridian
    (Sutherland-Hodgman).  It stands for the geometry engine where the
    pipeline is run on concrete inputs; other polygons are rejected. *)

Definition crossing_point (m : Q) (a b : Coord) : Coord :=
  (m, snd a + (snd b - snd a) * ((m - fst a) / (fst b - fst a))).

Fixpoint clip_edges (inside : Q -> bool) (m : Q) (prev : Coord) (rest : Ring) : Ring :=
  match rest with
  | [] => []
  | cur :: tl =>
      (match inside (fst prev), inside (fst cur) with
       | true, true => [cur]
       | true, false => [crossing_point m prev cur]
       | false, true => [crossing_point m prev cur; cur]
       | false, false => []
       end) ++ clip_edges inside m cur tl
  end.

Definition clip_ring (inside : Q -> bool) (m : Q) (r : Ring) : Ring :=
  match r with
  | [] => []
  | first :: tl =>
      match clip_edges inside m first tl with
      | [] => []
      | c :: cs => c :: cs ++ [c]
      end
  end.

Definition convex_split (p : Polygon) (m : Q) : option GeometryCollection :=
  match p with
  | [shell] =>
      let west := clip_ring (fun x => Qle_bool x m) m shell in
      let east := clip_ring (fun x => Qle_bool m x) m shell in
      if Qeq_bool (ring_area west) 0 || Qeq_bool (ring_area east) 0
      then Some [p]
      else Some [west :: []; east :: []]
  | _ => None
  end.

(** ** Vocabulary of the specification *)

(** No two consecutive vertices of the ring are further apart in longitude
    than the threshold. *)
Fixpoint steps_within (thr lon_prev : Q) (rest : Ring) : bool :=
  match rest with
  | [] => true
  | c :: tl => Qle_bool (Qabs (fst c - lon_prev)) thr && steps_within thr (fst c) tl
  end.

Definition ring_no_crossing (thr : Q) (r : Ring) : bool :=
  match r with
  | [] => true
  | c :: tl => steps_within thr (fst c) tl
  end.

Definition no_crossing (p : Polygon) : bool :=
  forallb (ring_no_crossing dlon_threshold_default) p.

(** Longitude inside the valid range. *)
Definition lon_valid (c : Coord) : bool := Qle_bool (-180) (fst c) && Qle_bool (fst c) 180.

(** Bounds inside the valid range. *)
Definition in_range (b : Q * Q) : Prop := -180 <= fst b /\ snd b <= 180.

(** Bounds moved by [d] degrees. *)
Definition shift_bounds (d : Q) (b : Q * Q) : Q * Q := (fst b + d, snd b + d).

(** In polygon [p], normalized into [coords], some ring in which crossings
    were detected has the bounds [hb] once unwrapped and aligned. *)
Definition crossed_ring (validate : bool) (p coords : Polygon) (hb : Q * Q) : Prop :=
  exists j first rest r b n h,
    p !! j = Some (first :: rest)
    /\ unwrap_ring validate first rest = Ok (r, b, n)
    /\ n <> 0%nat
    /\ coords !! j = Some h
    /\ ring_bounds h = Some hb.

(** The bounds [b] of a hole fit the bounds [sb] of the shell in a common
    frame: as they are, or a whole turn away. *)
Definition nests_in_frame (sb b : Q * Q) : Prop :=
  exists k, (k == -360 \/ k == 0 \/ k == 360)
            /\ fst sb <= fst b + k /\ snd b + k <= snd sb.

(** The bounding box [hb] lies within the bounding box [sb]. *)
Definition within (hb sb : Q * Q) : Prop := fst sb <= fst hb /\ snd hb <= snd sb.

(** The latitude of the last vertex of the path from [prev] through [rest]. *)
Fixpoint final_lat (prev : Coord) (rest : Ring) : Q :=
  match rest with
  | [] => snd prev
  | c :: tl => final_lat c tl
  end.

(** The polygon spans the longitudes from [a] to [b]. *)
Definition spans (p : Polygon) (a b : Q) : Prop :=
  match bounds p with
  | Some (minx, maxx) => minx == a /\ maxx == b
  | None => False
  end.

(** Equality of coordinates as numbers. *)
Definition coord_eqb (a b : Coord) : bool :=
  Qeq_bool (fst a) (fst b) && Qeq_bool (snd a) (snd b).

Fixpoint list_eqb {A : Type} (eqb : A -> A -> bool) (l1 l2 : list A) : bool :=
  match l1, l2 with
  | [], [] => true
  | x :: t1, y :: t2 => eqb x y && list_eqb eqb t1 t2
  | _, _ => false
  end.

Definition polygon_eqb : Polygon -> Polygon -> bool := list_eqb (list_eqb coord_eqb).

(** The width of the longitudinal bounding box of a collection. *)
Definition width (gc : GeometryCollection) : option Q := difference (collection_bounds gc).

Definition rect (x0 x1 y0 y1 : Q) : Ring :=
  [(x0, y0); (x1, y0); (x1, y1); (x0, y1); (x0, y0)].

(** The ring of the docstring of [split_polygon], and its unwrapped form. *)
Definition example_ring : Ring := [(179, 0); (-179, 0); (-179, 1); (179, 1); (179, 0)].
Definition example_unwrapped : Ring := [(179, 0); (181, 0); (181, 1); (179, 1); (179, 0)].

(** A shell across the antimeridian with a hole on its far side. *)
Definition holed_example : Polygon :=
  [[(170, 0); (-170, 0); (-170, 10); (170, 10); (170, 0)]; rect (-178) (-175) 2 5].

(** A ring given as a shell and a ring outside it given as its hole. *)
Definition stray_hole_example : Polygon := [rect 0 10 0 10; rect 20 30 2 3].

(** A ring that crosses the antimeridian eastwards and then westwards. *)
Definition zigzag_ring : Ring :=
  [(170, 0); (-170, 0); (-170, 1); (170, 1); (0, 1); (-170, 2); (170, 2); (170, 0)].

(** ** Further vocabulary *)

(** Vertex [c'] is vertex [c] where it was, or one turn to the west or to
    the east. *)
Definition one_turn (c c' : Coord) : Prop :=
  snd c' = snd c
  /\ (fst c' = fst c \/ fst c' == fst c - 360 \/ fst c' == fst c + 360).

(** The fragment has no vertex, or its least longitude is not below zero. *)
Definition eastern (p : Polygon) : Prop :=
  forall b, bounds p = Some b -> 0 <= fst b.

(** ** The same code over binary64

    The definitions above compute with exact rationals.  Where a property
    depends on how Python rounds, the code is read again here word for word
    over Rocq's primitive binary64 floats: [+], [-], [*], [<?] and [abs] are
    the IEEE 754 operations Python performs. *)

Module B64.

Local Open Scope float_scope.

Definition Coord : Type := float * float.
Abbreviation Ring := (list Coord).
Abbreviation Polygon := (list (list Coord)).
Abbreviation GeometryCollection := (list (list (list Coord))).

(** [affinity.translate(polygon, xoff)]: the matrix product leaves the
    latitude as it is and adds [xoff] to the longitude. *)
Definition translate_coord (xoff : float) (c : Coord) : Coord := (fst c + xoff, snd c).
Definition translate_ring (xoff : float) (r : Ring) : Ring := map (translate_coord xoff) r.
Definition translate (xoff : float) (p : Polygon) : Polygon := map (translate_ring xoff) p.

Definition lower (m x : float) : float := if x <? m then x else m.
Definition upper (m x : float) : float := if m <? x then x else m.

Fixpoint lon_range (minx maxx : float) (r : Ring) : float * float :=
  match r with
  | [] => (minx, maxx)
  | c :: tl => lon_range (lower minx (fst c)) (upper maxx (fst c)) tl
  end.

Definition ring_bounds (r : Ring) : option (float * float) :=
  match r with
  | [] => None
  | c :: tl => Some (lon_range (fst c) (fst c) tl)
  end.

(** [polygon.bounds], the longitudes only; none for an empty geometry. *)
Definition bounds (p : Polygon) : option (float * float) :=
  match p with
  | [] => None
  | shell :: _ => ring_bounds shell
  end.

Definition join_bounds (a b : option (float * float)) : option (float * float) :=
  match a, b with
  | Some (a1, a2), Some (b1, b2) => Some (lower a1 b1, upper a2 b2)
  | Some x, None => Some x
  | None, y => y
  end.

(** [geometry_collection.bounds]. *)
Definition collection_bounds (gc : GeometryCollection) : option (float * float) :=
  fold_left (fun acc p => join_bounds acc (bounds p)) gc None.

(** [check_crossing], lines 8-17. *)
Definition check_crossing (lon1 lon2 : float) (validate : bool) (dlon_threshold : float)
  : result bool :=
  if validate && existsb (fun x => 180 <? abs x) [lon1; lon2]
  then Raise ValueError_longitudes
  else Ok (dlon_threshold <? abs (lon2 - lon1)).

(** [translate_polygons], lines 20-32. *)
Definition translate_polygon (polygon : Polygon) : Polygon :=
  match bounds polygon with
  | Some (minx, maxx) =>
      if minx <? -180 then translate 360 polygon
      else if 180 <? maxx then translate (-360) polygon
      else polygon
  | None => polygon
  end.

Definition translate_polygons (geometry_collection : GeometryCollection)
  : GeometryCollection :=
  map translate_polygon geometry_collection.

(** [math.copysign(1, x)]: the sign bit of [x], also of a zero.  It is only
    called on the difference of two longitudes found more than the threshold
    apart, which is not a NaN. *)
Definition copysign1 (x : float) : float := if get_sign x then -1 else 1.

(** The inner loop, lines 81-90. *)
Fixpoint unwrap_tail (validate : bool) (lon_prev ring_minx ring_maxx : float)
    (crossings : nat) (rest : Ring) : result (Ring * (float * float) * nat) :=
  match rest with
  | [] => Ok ([], (ring_minx, ring_maxx), crossings)
  | (lon, lat) :: tl =>
      crossed ← check_crossing lon lon_prev validate 180;
      let direction := copysign1 (lon - lon_prev) in
      let x_shift := if (crossed : bool) then lon - direction * 360 else lon in
      let crossings := if crossed then S crossings else crossings in
      let ring_minx := lower ring_minx x_shift in
      let ring_maxx := upper ring_maxx x_shift in
      '(tl', b, n) ← unwrap_tail validate x_shift ring_minx ring_maxx crossings tl;
      Ok ((x_shift, lat) :: tl', b, n)
  end.

Definition unwrap_ring (validate : bool) (first : Coord) (rest : Ring)
  : result (Ring * (float * float) * nat) :=
  '(tl', b, n) ← unwrap_tail validate (fst first) (fst first) (fst first) 0%nat rest;
  Ok (first :: tl', b, n).

Record split_state : Type := {
  shell_x : option (float * float);
  split_meridians : gset Z
}.

(** Lines 93-102. *)
Definition align (ring_index : nat) (shell : option (float * float)) (ring : Ring)
    (b : float * float) : result (Ring * (float * float) * option (float * float)) :=
  let '(ring_minx, ring_maxx) := b in
  if Nat.eqb ring_index 0 then Ok (ring, b, Some b)
  else match shell with
       | None => Raise TypeError_None
       | Some (shell_minx, shell_maxx) =>
           if ring_minx <? shell_minx
           then Ok (map (fun c => (fst c + 360, snd c)) ring,
                    (ring_minx + 360, ring_maxx + 360), shell)
           else if shell_maxx <? ring_maxx
           then Ok (map (fun c => (fst c - 360, snd c)) ring,
                    (ring_minx - 360, ring_maxx - 360), shell)
           else Ok (ring, b, shell)
       end.

(** Lines 104-108. *)
Definition mark (crossings : nat) (b : float * float) (marks : gset Z) : gset Z :=
  if Nat.eqb crossings 0 then marks
  else
    let marks := if fst b <? -180 then {[ (-180)%Z ]} ∪ marks else marks in
    if 180 <? snd b then {[ 180%Z ]} ∪ marks else marks.

Definition normalize_ring (validate : bool) (ring_index : nat) (ring : Ring)
    (st : split_state) : result (Ring * split_state) :=
  match ring with
  | [] => Ok ([], st)
  | first :: rest =>
      '(ring', b, crossings) ← unwrap_ring validate first rest;
      '(ring'', b', shell) ← align ring_index (shell_x st) ring' b;
      Ok (ring'', {| shell_x := shell;
                     split_meridians := mark crossings b' (split_meridians st) |})
  end.

Fixpoint normalize_rings (validate : bool) (ring_index : nat) (rings : list Ring)
    (st : split_state) : result (list Ring * split_state) :=
  match rings with
  | [] => Ok ([], st)
  | ring :: tl =>
      '(ring', st') ← normalize_ring validate ring_index ring st;
      '(tl', st'') ← normalize_rings validate (S ring_index) tl st';
      Ok (ring' :: tl', st'')
  end.

Definition initial_state : split_state :=
  {| shell_x := None; split_meridians := ∅ |}.

(** The longitude of the meridian [split_lon], an [int] in the source, as
    the float the splitting line is built from. *)
Definition meridian (split_lon : Z) : float :=
  match split_lon with
  | Z0 => 0
  | Zpos _ => of_uint63 (Uint63.of_Z split_lon)
  | Zneg _ => - of_uint63 (Uint63.of_Z (- split_lon))
  end.

Section SplitPrimitive.

Variable ops_split : Polygon -> float -> option GeometryCollection.

(** [split_polygon], lines 35-129. *)
Definition split_polygon (_polygon : Polygon) (validate : bool)
  : result GeometryCollection :=
  '(coords_shift, st) ← normalize_rings validate 0 _polygon initial_state;
  let n_splits := size (split_meridians st) in
  if Nat.ltb 1 n_splits then Raise NotImplementedError_split
  else
    let splitter := if Nat.eqb n_splits 1 then head (elements (split_meridians st))
                    else None in
    match splitter with
    | Some split_lon =>
        match coords_shift with
        | [] => Raise ValueError_unpack
        | shell :: holes =>
            match ops_split (shell :: holes) (meridian split_lon) with
            | Some split_polygons => Ok (translate_polygons split_polygons)
            | None => Raise GeometryError
            end
        end
    | None =>
        match _polygon with
        | [] => Raise ValueError_unpack
        | shell :: holes => Ok (translate_polygons [shell :: holes])
        end
    end.

(** [split_multipolygon], lines 132-140. *)
Fixpoint split_multipolygon (_multipolygon : GeometryCollection)
  : result GeometryCollection :=
  match _multipolygon with
  | [] => Ok []
  | _polygon :: tl =>
      r ← split_polygon _polygon false;
      rest ← split_multipolygon tl;
      Ok (r ++ rest)
  end.

End SplitPrimitive.

(** [wrap_polygons], lines 143-169. *)
Definition difference (b : option (float * float)) : option float :=
  match b with
  | Some (minx, maxx) => Some (maxx - minx)
  | None => None
  end.

Definition difference_ltb (a b : option float) : bool :=
  match a, b with
  | Some x, Some y => x <? y
  | _, _ => false
  end.

Definition wrap_polygon (_polygon : Polygon) : Polygon :=
  match bounds _polygon with
  | Some (minx, _) => if minx <? 0 then translate 360 _polygon else _polygon
  | None => _polygon
  end.

Definition transformed (geometry_collection : GeometryCollection) : GeometryCollection :=
  map wrap_polygon geometry_collection.

Definition wrap_polygons (geometry_collection : GeometryCollection) (verbose : bool)
  : GeometryCollection * list string :=
  let initial_difference := difference (collection_bounds geometry_collection) in
  let transformed_difference :=
    difference (collection_bounds (transformed geometry_collection)) in
  if difference_ltb transformed_difference initial_difference
  then (transformed geometry_collection,
        if verbose then ["Wrapped polygons to reduce footprint"%string] else [])
  else (geometry_collection, []).

(** [splitter], lines 171-180. *)
Inductive Geometry : Type :=
| GPolygon (p : Polygon)
| GMultiPolygon (mp : GeometryCollection)
| GOther (geom_type : string).

Definition dispatch (ops_split : Polygon -> float -> option GeometryCollection)
    (geometry_collection : Geometry) : result (option GeometryCollection) :=
  _split ← match geometry_collection with
           | GMultiPolygon mp => r ← split_multipolygon ops_split mp; Ok (Some r)
           | _ => Ok None
           end;
  match geometry_collection with
  | GPolygon p => r ← split_polygon ops_split p false; Ok (Some r)
  | _ => Ok _split
  end.

Definition splitter (ops_split : Polygon -> float -> option GeometryCollection)
    (geometry_collection : Geometry) (verbose : bool)
  : result (GeometryCollection * list string) :=
  _split ← dispatch ops_split geometry_collection;
  match _split with
  | Some _split => Ok (wrap_polygons _split verbose)
  | None => Raise UnboundLocalError_split
  end.

(** *** A split primitive for convex shells, over binary64 *)

Definition crossing_point (m : float) (a b : Coord) : Coord :=
  (m, snd a + (snd b - snd a) * ((m - fst a) / (fst b - fst a))).

Fixpoint clip_edges (inside : float -> bool) (m : float) (prev : Coord) (rest : Ring)
  : Ring :=
  match rest with
  | [] => []
  | cur :: tl =>
      (match inside (fst prev), inside (fst cur) with
       | true, true => [cur]
       | true, false => [crossing_point m prev cur]
       | false, true => [crossing_point m prev cur; cur]
       | false, false => []
       end) ++ clip_edges inside m cur tl
  end.

Definition clip_ring (inside : float -> bool) (m : float) (r : Ring) : Ring :=
  match r with
  | [] => []
  | first :: tl =>
      match clip_edges inside m first tl with
      | [] => []
      | c :: cs => c :: cs ++ [c]
      end
  end.

(** The clipped ring has some vertex off the meridian. *)
Definition off_meridian (m : float) (r : Ring) : bool :=
  existsb (fun c => negb (fst c =? m)) r.

Definition convex_split (p : Polygon) (m : float) : option GeometryCollection :=
  match p with
  | [shell] =>
      let west := clip_ring (fun x => x <=? m) m shell in
      let east := clip_ring (fun x => m <=? x) m shell in
      if off_meridian m west && off_meridian m east
      then Some [west :: []; east :: []]
      else Some [p]
  | _ => None
  end.

(** *** Vocabulary over binary64 *)

(** The exact value of a finite float, as a rational. *)
Definition value (f : float) : option Q :=
  match Prim2SF f with
  | S754_zero _ => Some 0%Q
  | S754_finite s m e =>
      Some ((if s then -1 else 1) * inject_Z (Zpos m) * Qpower 2 e)%Q
  | _ => None
  end.

(** The longitudes of the shell of a polygon, and of a whole collection. *)
Definition shell_lons (p : Polygon) : list float :=
  match p with
  | [] => []
  | shell :: _ => map fst shell
  end.

(** [m] is one of the numbers of [l] and none of them is below it. *)
Definition least (l : list float) (m : float) : Prop :=
  In m l /\ forall x, In x l -> (x <? m) = false.

(** [m] is one of the numbers of [l] and none of them is above it. *)
Definition greatest (l : list float) (m : float) : Prop :=
  In m l /\ forall x, In x l -> (m <? x) = false.

(** [b] is the bounding box of the shell of [p]. *)
Definition frame (p : Polygon) (b : float * float) : Prop :=
  least (shell_lons p) (fst b) /\ greatest (shell_lons p) (snd b).

(** The polygon has a shell with at least one vertex. *)
Definition has_shell (p : Polygon) : bool :=
  match shell_lons p with
  | [] => false
  | _ :: _ => true
  end.

(** [b] is the bounding box of the collection: the union of the bounding
    boxes [bs] of its members that have a shell. *)
Definition collection_frame (gc : GeometryCollection) (b : float * float) : Prop :=
  exists bs,
    Forall2 frame (List.filter has_shell gc) bs
    /\ least (map fst bs) (fst b) /\ greatest (map snd bs) (snd b).

(** The polygon with every longitude increased by 360. *)
Definition east (p : Polygon) : Polygon :=
  map (map (fun c : Coord => (fst c + 360, snd c))) p.

(** No crossing is detected between consecutive vertices. *)
Fixpoint steps_within (lon_prev : float) (rest : Ring) : bool :=
  match rest with
  | [] => true
  | c :: tl => negb (180 <? abs (lon_prev - fst c)) && steps_within (fst c) tl
  end.

Definition ring_no_crossing (r : Ring) : bool :=
  match r with
  | [] => true
  | c :: tl => steps_within (fst c) tl
  end.

Definition no_crossing (p : Polygon) : bool := forallb ring_no_crossing p.

(** A fragment the split stage leaves alone: it has a shell, no crossing is
    detected in any of its rings, and its bounds do not reach beyond -180 or
    180. *)
Definition settled (p : Polygon) : Prop :=
  no_crossing p = true
  /\ exists minx maxx, bounds p = Some (minx, maxx)
       /\ (minx <? -180) = false /\ (180 <? maxx) = false.

(** The optimizer's shift can be undone on the fragment: either the
    optimizer leaves it where it is, or the fragment it moves it to still
    shows no crossing and is brought back by the range re-wrap to the very
    same coordinates. *)
Definition recoverable (p : Polygon) : Prop :=
  wrap_polygon p = p
  \/ (no_crossing (wrap_polygon p) = true /\ translate_polygon (wrap_polygon p) = p).

(** What the fold of [collection_bounds] has accumulated over the members
    whose bounding boxes are [bs]. *)
Definition accumulated (acc : option (float * float)) (bs : list (float * float)) : Prop :=
  match acc with
  | None => bs = []
  | Some b => least (map fst bs) (fst b) /\ greatest (map snd bs) (snd b)
  end.

(** Vertex [c'] is vertex [c] where it was, or with 360 subtracted from or
    added to its longitude as line 85 computes it. *)
Definition one_turn (c c' : Coord) : Prop :=
  snd c' = snd c
  /\ (fst c' = fst c \/ fst c' = fst c - 360 \/ fst c' = fst c - -360).

Definition rect (x0 x1 y0 y1 : float) : Ring :=
  [(x0, y0); (x1, y0); (x1, y1); (x0, y1); (x0, y0)].

Definition example_ring : Ring := [(179, 0); (-179, 0); (-179, 1); (179, 1); (179, 0)].

End B64.

(** * Properties *)

(** ** Comparisons *)

Lemma Qltb_lt (x y : Q) : Qltb x y = true <-> x < y.
Proof.
  unfold Qltb. rewrite negb_true_iff. split; intros H.
  - apply Qnot_le_lt. intros Hle. apply Qle_bool_iff in Hle. congruence.
  - destruct (Qle_bool y x) eqn:E; [|reflexivity]. apply Qle_bool_iff in E. lra.
Qed.

Lemma Qltb_ge (x y : Q) : Qltb x y = false <-> y <= x.
Proof.
  unfold Qltb. rewrite negb_false_iff. apply Qle_bool_iff.
Qed.

Lemma Qgtb_gt (x y : Q) : Qgtb x y = true <-> y < x.
Proof. apply Qltb_lt. Qed.

Lemma Qgtb_le (x y : Q) : Qgtb x y = false <-> x <= y.
Proof. apply Qltb_ge. Qed.

Lemma Qltb_iff_eq (a b c d : Q) : (a < b <-> c < d) -> Qltb a b = Qltb c d.
Proof.
  intros H. destruct (Qltb a b) eqn:E1, (Qltb c d) eqn:E2; try reflexivity.
  - apply Qltb_lt in E1. apply Qltb_ge in E2. apply H in E1. lra.
  - apply Qltb_ge in E1. apply Qltb_lt in E2. apply H in E2. lra.
Qed.

Ltac qcases :=
  repeat match goal with
  | H : Qltb _ _ = true |- _ => apply Qltb_lt in H
  | H : Qltb _ _ = false |- _ => apply Qltb_ge in H
  | H : Qgtb _ _ = true |- _ => apply Qgtb_gt in H
  | H : Qgtb _ _ = false |- _ => apply Qgtb_le in H
  | H : Qle_bool _ _ = true |- _ => apply Qle_bool_iff in H
  end.

(** ** The error monad *)

Lemma bind_Ok {A B : Type} (m : result A) (f : A -> result B) (b : B) :
  m ≫= f = Ok b -> exists a, m = Ok a /\ f a = Ok b.
Proof. destruct m as [a|e]; simpl; [eauto | discriminate]. Qed.

Lemma bind_Raise {A B : Type} (m : result A) (f : A -> result B) (e : PyError) :
  m ≫= f = Raise e -> m = Raise e \/ exists a, m = Ok a /\ f a = Raise e.
Proof. destruct m as [a|e']; simpl; [eauto | intros [= ->]; auto]. Qed.

(** Inverts a successful bind in hypothesis [H]. *)
Ltac bind_inv H :=
  let a := fresh "r" in
  let Ha := fresh "Hr" in
  apply bind_Ok in H; destruct H as (a & Ha & H).

(** ** The dispatcher *)

(** C8. For an input that is neither a polygon nor a multipolygon neither
    test of the dispatcher assigns [_split], and reading it raises
    [UnboundLocalError]: the call does fail, but not with the validation
    error ([ValueError]) that marks an invalid input. *)
Theorem splitter_other_type (ops_split : Polygon -> Q -> option GeometryCollection)
    (geom_type : string) (verbose : bool) :
  dispatch ops_split (GOther geom_type) = Ok None
  /\ splitter ops_split (GOther geom_type) verbose = Raise UnboundLocalError_split
  /\ splitter ops_split (GOther geom_type) verbose <> Raise ValueError_longitudes.
Proof. repeat split. discriminate. Qed.

(** ** Without [validate] the ring loop raises no validation error *)

Lemma unwrap_tail_unchecked (lon_prev minx maxx : Q) (n : nat) (rest : Ring) :
  exists r, unwrap_tail false lon_prev minx maxx n rest = Ok r.
Proof.
  revert lon_prev minx maxx n.
  induction rest as [|[lon lat] tl IH]; intros lon_prev minx maxx n; simpl.
  - eauto.
  - match goal with
    | |- context [unwrap_tail false ?a ?b ?c ?d tl] =>
        destruct (IH a b c d) as ([[tl' b'] n'] & ->)
    end.
    simpl. eauto.
Qed.

Lemma unwrap_ring_unchecked (first : Coord) (rest : Ring) :
  exists r, unwrap_ring false first rest = Ok r.
Proof.
  unfold unwrap_ring.
  destruct (unwrap_tail_unchecked (fst first) (fst first) (fst first) 0 rest)
    as ([[tl' b'] n'] & ->).
  simpl. eauto.
Qed.

Lemma align_raises (i : nat) (shell : option (Q * Q)) (ring : Ring) (b : Q * Q)
    (e : PyError) :
  align i shell ring b = Raise e -> e = TypeError_None.
Proof.
  unfold align. destruct b as [mn mx].
  destruct (Nat.eqb i 0); [discriminate|].
  destruct shell as [[smin smax]|]; [|congruence].
  destruct (Qltb mn smin); [discriminate|].
  destruct (Qgtb mx smax); discriminate.
Qed.

Lemma normalize_ring_unchecked (i : nat) (ring : Ring) (st : split_state) (e : PyError) :
  normalize_ring false i ring st = Raise e -> e = TypeError_None.
Proof.
  unfold normalize_ring. destruct ring as [|first rest]; [discriminate|].
  destruct (unwrap_ring_unchecked first rest) as ([[r b] n] & ->). simpl.
  destruct (align i (shell_x st) r b) as [[[r' b'] sh]|e'] eqn:Ha; simpl.
  - discriminate.
  - intros [= <-]. eapply align_raises, Ha.
Qed.

Lemma normalize_rings_unchecked (i : nat) (rings : list Ring) (st : split_state)
    (e : PyError) :
  normalize_rings false i rings st = Raise e -> e = TypeError_None.
Proof.
  revert i st. induction rings as [|ring tl IH]; intros i st; simpl; [discriminate|].
  destruct (normalize_ring false i ring st) as [[r st']|e'] eqn:Hr; simpl.
  - destruct (normalize_rings false (S i) tl st') as [[tl' st'']|e''] eqn:Ht; simpl.
    + discriminate.
    + intros [= <-]. eapply IH, Ht.
  - intros [= <-]. eapply normalize_ring_unchecked, Hr.
Qed.

Section Unchecked.

Variable ops_split : Polygon -> Q -> option GeometryCollection.

Lemma split_polygon_unchecked (p : Polygon) :
  split_polygon ops_split p false <> Raise ValueError_longitudes.
Proof.
  unfold split_polygon.
  destruct (normalize_rings false 0 p initial_state) as [[coords st]|e] eqn:Hn; simpl.
  - destruct (Nat.ltb 1 (size (split_meridians st))); [discriminate|].
    destruct (if Nat.eqb _ 1 then _ else _) as [m|].
    + destruct coords as [|shell holes]; [discriminate|].
      destruct (ops_split _ _); discriminate.
    + destruct p; discriminate.
  - apply normalize_rings_unchecked in Hn. subst e. discriminate.
Qed.

Lemma split_multipolygon_unchecked (mp : GeometryCollection) :
  split_multipolygon ops_split mp <> Raise ValueError_longitudes.
Proof.
  induction mp as [|p tl IH]; simpl; [discriminate|].
  pose proof (split_polygon_unchecked p) as Hp.
  destruct (split_polygon ops_split p false) as [r|e]; simpl; [|congruence].
  destruct (split_multipolygon ops_split tl) as [rest|e]; simpl; [discriminate|congruence].
Qed.

Lemma dispatch_unchecked (g : Geometry) :
  dispatch ops_split g <> Raise ValueError_longitudes.
Proof.
  destruct g as [p|mp|t]; unfold dispatch; simpl.
  - pose proof (split_polygon_unchecked p) as Hp.
    destruct (split_polygon ops_split p false); simpl; [discriminate|congruence].
  - pose proof (split_multipolygon_unchecked mp) as Hp.
    destruct (split_multipolygon ops_split mp); simpl; [discriminate|congruence].
  - discriminate.
Qed.

End Unchecked.

(** C9. The multipolygon splitter calls the polygon splitter with
    [validate] false on every member, and the dispatcher takes no [validate]
    argument: whatever the input and the split primitive, neither raises the
    validation error, although the polygon splitter under [validate] does
    raise it on a longitude outside the domain. *)
Theorem validation_unreachable (ops_split : Polygon -> Q -> option GeometryCollection) :
  (forall p tl,
     split_multipolygon ops_split (p :: tl) =
       r ← split_polygon ops_split p false;
       rest ← split_multipolygon ops_split tl;
       Ok (r ++ rest))
  /\ (forall mp, split_multipolygon ops_split mp <> Raise ValueError_longitudes)
  /\ (forall g verbose, splitter ops_split g verbose <> Raise ValueError_longitudes)
  /\ split_polygon ops_split [rect 200 201 0 1] true = Raise ValueError_longitudes
  /\ (exists out, splitter ops_split (GPolygon [rect 200 201 0 1]) false = Ok out)
  /\ (exists out, splitter ops_split (GMultiPolygon [[rect 200 201 0 1]]) false = Ok out).
Proof.
  split; [reflexivity|]. split; [apply split_multipolygon_unchecked|]. split.
  - intros g verbose. unfold splitter.
    pose proof (dispatch_unchecked ops_split g) as Hd.
    destruct (dispatch ops_split g) as [[s|]|e]; simpl; congruence.
  - split; [reflexivity|]. split; eexists; vm_compute; reflexivity.
Qed.

(** ** Bounds and translation *)

Lemma lower_shift (m x d : Q) : lower (m + d) (x + d) = lower m x + d.
Proof.
  unfold lower. rewrite (Qltb_iff_eq (x + d) (m + d) x m) by (split; intro; lra).
  destruct (Qltb x m); reflexivity.
Qed.

Lemma upper_shift (m x d : Q) : upper (m + d) (x + d) = upper m x + d.
Proof.
  unfold upper, Qgtb. rewrite (Qltb_iff_eq (m + d) (x + d) m x) by (split; intro; lra).
  destruct (Qltb m x); reflexivity.
Qed.

Lemma lon_range_translate (d minx maxx : Q) (r : Ring) :
  lon_range (minx + d) (maxx + d) (translate_ring d r)
  = shift_bounds d (lon_range minx maxx r).
Proof.
  revert minx maxx. induction r as [|c tl IH]; intros minx maxx; simpl.
  - reflexivity.
  - rewrite lower_shift, upper_shift. apply IH.
Qed.

Lemma ring_bounds_translate (d : Q) (r : Ring) :
  ring_bounds (translate_ring d r) = option_map (shift_bounds d) (ring_bounds r).
Proof.
  destruct r as [|c tl]; simpl; [reflexivity|].
  f_equal. apply lon_range_translate.
Qed.

Lemma bounds_translate (d : Q) (p : Polygon) :
  bounds (translate d p) = option_map (shift_bounds d) (bounds p).
Proof.
  destruct p as [|shell holes]; simpl; [reflexivity|]. apply ring_bounds_translate.
Qed.

(** The running bounds are ordered and enclose the starting ones. *)
Lemma lon_range_spec (minx maxx : Q) (r : Ring) :
  minx <= maxx ->
  fst (lon_range minx maxx r) <= minx /\ maxx <= snd (lon_range minx maxx r).
Proof.
  revert minx maxx. induction r as [|c tl IH]; intros minx maxx Hle; simpl.
  - lra.
  - assert (lower minx (fst c) <= minx /\ maxx <= upper maxx (fst c)) as [H1 H2].
    { unfold lower, upper. destruct (Qltb (fst c) minx) eqn:E1, (Qgtb (fst c) maxx) eqn:E2;
        qcases; lra. }
    destruct (IH (lower minx (fst c)) (upper maxx (fst c))) as [H3 H4]; lra.
Qed.

Lemma ring_bounds_ordered (r : Ring) (b : Q * Q) :
  ring_bounds r = Some b -> fst b <= snd b.
Proof.
  destruct r as [|c tl]; simpl; [discriminate|]. intros [= <-].
  destruct (lon_range_spec (fst c) (fst c) tl); lra.
Qed.

(** ** The inner loop *)

Lemma unwrap_tail_bounds (validate : bool) (lon_prev minx maxx : Q) (n : nat)
    (rest tl' : Ring) (b : Q * Q) (n' : nat) :
  unwrap_tail validate lon_prev minx maxx n rest = Ok (tl', b, n') ->
  b = lon_range minx maxx tl' /\ length tl' = length rest.
Proof.
  revert lon_prev minx maxx n tl' b n'.
  induction rest as [|[lon lat] tl IH]; intros lon_prev minx maxx n tl' b n'; simpl.
  - intros [= <- <- <-]. auto.
  - intros H. bind_inv H. bind_inv H. destruct r0 as [[t bb] m].
    injection H as <- <- <-. apply IH in Hr0 as [-> Hlen]. simpl. auto.
Qed.

Lemma unwrap_ring_bounds (validate : bool) (first : Coord) (rest r : Ring)
    (b : Q * Q) (n : nat) :
  unwrap_ring validate first rest = Ok (r, b, n) ->
  ring_bounds r = Some b /\ exists tl', r = first :: tl' /\ length tl' = length rest.
Proof.
  unfold unwrap_ring. intros H. bind_inv H. destruct r0 as [[t bb] m].
  injection H as <- <- <-. apply unwrap_tail_bounds in Hr as [-> Hlen]. simpl. eauto.
Qed.

(** ** Alignment of a hole with the shell *)

Lemma align_bounds (i : nat) (shell shell' : option (Q * Q)) (ring ring' : Ring)
    (b b' : Q * Q) :
  align i shell ring b = Ok (ring', b', shell') ->
  ring_bounds ring = Some b ->
  ring_bounds ring' = Some b' /\ length ring' = length ring.
Proof.
  unfold align. destruct b as [mn mx]. intros H Hb.
  destruct (Nat.eqb i 0); [injection H as <- <- <-; auto|].
  destruct shell as [[smin smax]|]; [|discriminate].
  destruct (Qltb mn smin).
  { injection H as <- <- <-. rewrite ring_bounds_translate, Hb. split; [reflexivity|].
    apply length_map. }
  destruct (Qgtb mx smax).
  { injection H as <- <- <-. rewrite ring_bounds_translate, Hb. split; [reflexivity|].
    apply length_map. }
  injection H as <- <- <-. auto.
Qed.

Lemma align_shell (i : nat) (shell shell' : option (Q * Q)) (ring ring' : Ring)
    (b b' : Q * Q) :
  align i shell ring b = Ok (ring', b', shell') ->
  (i = 0%nat /\ shell' = Some b /\ ring' = ring /\ b' = b)
  \/ (i <> 0%nat /\ shell' = shell /\ exists smin smax, shell = Some (smin, smax)).
Proof.
  unfold align. destruct b as [mn mx]. intros H.
  destruct (Nat.eqb i 0) eqn:Ei.
  { apply Nat.eqb_eq in Ei. injection H as <- <- <-. left. auto. }
  apply Nat.eqb_neq in Ei. right.
  destruct shell as [[smin smax]|]; [|discriminate].
  destruct (Qltb mn smin); [injection H as <- <- <-; eauto|].
  destruct (Qgtb mx smax); injection H as <- <- <-; eauto.
Qed.

(** ** The outer loop, ring by ring *)

Lemma normalize_ring_inv (validate : bool) (i : nat) (first : Coord) (rest h : Ring)
    (st st1 : split_state) :
  normalize_ring validate i (first :: rest) st = Ok (h, st1) ->
  exists r b n hb,
    unwrap_ring validate first rest = Ok (r, b, n)
    /\ align i (shell_x st) r b = Ok (h, hb, shell_x st1)
    /\ ring_bounds h = Some hb
    /\ split_meridians st1 = mark n hb (split_meridians st)
    /\ h <> [].
Proof.
  unfold normalize_ring. intros H. bind_inv H. destruct r as [[r b] n].
  bind_inv H. destruct r0 as [[h' hb] sh]. injection H as <- <-. simpl.
  exists r, b, n, hb. split; [assumption|]. split; [assumption|].
  destruct (unwrap_ring_bounds _ _ _ _ _ _ Hr) as (Hb & tl' & -> & _).
  destruct (align_bounds _ _ _ _ _ _ _ Hr0 Hb) as [Hhb Hlen].
  repeat split; try assumption.
  intros ->. simpl in Hlen. discriminate.
Qed.

Lemma normalize_rings_cons (validate : bool) (i : nat) (ring : Ring)
    (tl coords : list Ring) (st st' : split_state) :
  normalize_rings validate i (ring :: tl) st = Ok (coords, st') ->
  exists h st1 tl',
    normalize_ring validate i ring st = Ok (h, st1)
    /\ normalize_rings validate (S i) tl st1 = Ok (tl', st')
    /\ coords = h :: tl'.
Proof.
  simpl. intros H. bind_inv H. destruct r as [h st1].
  bind_inv H. destruct r as [tl' st2]. injection H as <- <-. eauto 6.
Qed.

Lemma normalize_rings_length (validate : bool) (i : nat) (rings coords : list Ring)
    (st st' : split_state) :
  normalize_rings validate i rings st = Ok (coords, st') ->
  length coords = length rings.
Proof.
  revert i st coords. induction rings as [|ring tl IH]; intros i st coords H.
  - injection H as <- <-. reflexivity.
  - apply normalize_rings_cons in H as (h & st1 & tl' & _ & Ht & ->).
    simpl. f_equal. eapply IH, Ht.
Qed.

(** *** Meridian marks *)

Lemma mark_elem (n : nat) (b : Q * Q) (marks : gset Z) (m : Z) :
  m ∈ mark n b marks <->
  m ∈ marks \/ (n <> 0%nat /\ ((m = (-180)%Z /\ fst b < -180) \/ (m = 180%Z /\ 180 < snd b))).
Proof.
  unfold mark. destruct (Nat.eqb n 0) eqn:En.
  - apply Nat.eqb_eq in En. subst n. split; [auto|]. intros [H|[H _]]; [assumption|].
    exfalso. apply H. reflexivity.
  - apply Nat.eqb_neq in En.
    destruct (Qltb (fst b) (-180)) eqn:E1, (Qgtb (snd b) 180) eqn:E2; qcases;
      rewrite ?elem_of_union, ?elem_of_singleton; split; intros H;
      repeat match goal with
      | H : _ \/ _ |- _ => destruct H
      | H : _ /\ _ |- _ => destruct H
      end; subst; auto; try lra; try (right; split; [assumption|]; auto).
Qed.

Lemma normalize_ring_marks (validate : bool) (i : nat) (ring h : Ring)
    (st st1 : split_state) :
  normalize_ring validate i ring st = Ok (h, st1) ->
  split_meridians st ⊆ split_meridians st1.
Proof.
  destruct ring as [|first rest].
  - intros [= <- <-]. reflexivity.
  - intros H. apply normalize_ring_inv in H as (r & b & n & hb & _ & _ & _ & -> & _).
    intros m Hm. apply mark_elem. auto.
Qed.

Lemma normalize_rings_marks (validate : bool) (i : nat) (rings coords : list Ring)
    (st st' : split_state) :
  normalize_rings validate i rings st = Ok (coords, st') ->
  split_meridians st ⊆ split_meridians st'
  /\ forall j first rest r b n h hb,
       rings !! j = Some (first :: rest) ->
       unwrap_ring validate first rest = Ok (r, b, n) ->
       coords !! j = Some h ->
       ring_bounds h = Some hb ->
       forall m, m ∈ mark n hb ∅ -> m ∈ split_meridians st'.
Proof.
  revert i st coords. induction rings as [|ring tl IH]; intros i st coords H.
  - injection H as <- <-. split; [reflexivity|]. intros j ? ? ? ? ? ? ? Hj. discriminate.
  - apply normalize_rings_cons in H as (h0 & st1 & tl' & Hr & Ht & ->).
    destruct (IH _ _ _ Ht) as [Hsub Hall].
    pose proof (normalize_ring_marks _ _ _ _ _ _ Hr) as Hsub1.
    split; [intros m Hm; apply Hsub, Hsub1, Hm|].
    intros [|j] first rest r b n h hb Hj Hu Hc Hb m Hm; simpl in Hj, Hc.
    + injection Hj as ->. injection Hc as ->.
      apply normalize_ring_inv in Hr as (r' & b' & n' & hb' & Hu' & _ & Hb' & Hmk & _).
      rewrite Hu in Hu'. injection Hu' as <- <- <-.
      rewrite Hb in Hb'. injection Hb' as <-.
      apply Hsub. rewrite Hmk. apply mark_elem. apply mark_elem in Hm as [Hm|Hm]; [|auto].
      exfalso. exact (not_elem_of_empty (C:=gset Z) m Hm).
    + eapply Hall; eassumption.
Qed.

(** ** Meridian selection *)

Lemma two_marks (marks : gset Z) :
  (-180)%Z ∈ marks -> 180%Z ∈ marks -> (1 < size marks)%nat.
Proof.
  intros H1 H2.
  assert (({[ (-180)%Z ]} ∪ {[ 180%Z ]} : gset Z) ⊆ marks) as Hsub.
  { intros m Hm. apply elem_of_union in Hm as [Hm|Hm];
      apply elem_of_singleton in Hm; subst m; assumption. }
  apply subseteq_size in Hsub.
  rewrite size_union in Hsub.
  - rewrite !size_singleton in Hsub. lia.
  - intros m Ha Hb. apply elem_of_singleton in Ha, Hb. lia.
Qed.

(** C2. When the ring loop marks both meridians, that is when some ring with
    crossings reaches below -180 once unwrapped and aligned and some ring with
    crossings reaches above 180, [split_polygon] raises [NotImplementedError]
    and returns no fragments. *)
Theorem both_meridians_unsupported
    (ops_split : Polygon -> Q -> option GeometryCollection)
    (p : Polygon) (validate : bool) (coords : Polygon) (st : split_state) :
  normalize_rings validate 0 p initial_state = Ok (coords, st) ->
  (exists hb, crossed_ring validate p coords hb /\ fst hb < -180) ->
  (exists hb, crossed_ring validate p coords hb /\ 180 < snd hb) ->
  ((-180)%Z ∈ split_meridians st /\ 180%Z ∈ split_meridians st)
  /\ split_polygon ops_split p validate = Raise NotImplementedError_split
  /\ forall fragments, split_polygon ops_split p validate <> Ok fragments.
Proof.
  intros Hn (hw & (jw & fw & rw & uw & bw & nw & w & Hpw & Huw & Hnw & Hcw & Hbw) & Hw)
            (he & (je & fe & re & ue & be & ne & e & Hpe & Hue & Hne & Hce & Hbe) & He).
  destruct (normalize_rings_marks _ _ _ _ _ _ Hn) as [_ Hall].
  assert ((-180)%Z ∈ split_meridians st) as H1.
  { eapply (Hall jw); try eassumption. apply mark_elem. right. split; [assumption|]. auto. }
  assert (180%Z ∈ split_meridians st) as H2.
  { eapply (Hall je); try eassumption. apply mark_elem. right. split; [assumption|]. auto. }
  split; [auto|].
  assert (split_polygon ops_split p validate = Raise NotImplementedError_split) as Hr.
  { unfold split_polygon. rewrite Hn. simpl.
    pose proof (two_marks _ H1 H2) as Hs. apply Nat.ltb_lt in Hs. rewrite Hs. reflexivity. }
  split; [assumption|]. intros fragments. rewrite Hr. discriminate.
Qed.

Lemma both_meridians_unsupported_witness :
  split_polygon convex_split [zigzag_ring] false = Raise NotImplementedError_split.
Proof.
  eapply (both_meridians_unsupported convex_split [zigzag_ring] false).
  - vm_compute. reflexivity.
  - exists (-190, 190). split; [|vm_compute; reflexivity].
    exists 0%nat. do 6 eexists. split; [reflexivity|].
    split; [vm_compute; reflexivity|]. split; [discriminate|].
    split; reflexivity.
  - exists (-190, 190). split; [|vm_compute; reflexivity].
    exists 0%nat. do 6 eexists. split; [reflexivity|].
    split; [vm_compute; reflexivity|]. split; [discriminate|].
    split; reflexivity.
Defined.

(** ** Polygons without crossings *)

Lemma lon_valid_abs (c : Coord) : lon_valid c = true -> Qgtb (Qabs (fst c)) 180 = false.
Proof.
  unfold lon_valid. rewrite andb_true_iff. intros [H1 H2]. qcases.
  apply Qgtb_le, Qabs_Qle_condition. split; assumption.
Qed.

Lemma unwrap_tail_no_crossing (validate : bool) (prev : Coord) (minx maxx : Q)
    (n : nat) (rest : Ring) :
  steps_within dlon_threshold_default (fst prev) rest = true ->
  (validate = true -> forallb lon_valid (prev :: rest) = true) ->
  unwrap_tail validate (fst prev) minx maxx n rest = Ok (rest, lon_range minx maxx rest, n).
Proof.
  revert prev minx maxx.
  induction rest as [|[lon lat] tl IH]; intros prev minx maxx Hs Hv; simpl.
  - reflexivity.
  - simpl in Hs. apply andb_true_iff in Hs as [Hstep Hs].
    assert (check_crossing lon (fst prev) validate dlon_threshold_default = Ok false) as ->.
    { unfold check_crossing.
      assert (validate && existsb (fun x => Qgtb (Qabs x) 180) [lon; fst prev] = false) as ->.
      { destruct validate; [|reflexivity]. simpl.
        specialize (Hv eq_refl). simpl in Hv.
        apply andb_true_iff in Hv as [Hp Hv]. apply andb_true_iff in Hv as [Hl _].
        apply lon_valid_abs in Hp, Hl. simpl in Hl. rewrite Hp, Hl. reflexivity. }
      f_equal. rewrite Qabs_Qminus. apply Qgtb_le. qcases. exact Hstep. }
    simpl. rewrite (IH (lon, lat)); [reflexivity | exact Hs |].
    intros Ht. specialize (Hv Ht). simpl in Hv. apply andb_true_iff in Hv as [_ Hv]. exact Hv.
Qed.

Lemma unwrap_ring_no_crossing (validate : bool) (first : Coord) (rest : Ring) :
  ring_no_crossing dlon_threshold_default (first :: rest) = true ->
  (validate = true -> forallb lon_valid (first :: rest) = true) ->
  exists b, unwrap_ring validate first rest = Ok (first :: rest, b, 0%nat).
Proof.
  intros Hs Hv. unfold unwrap_ring.
  rewrite unwrap_tail_no_crossing by assumption. simpl. eauto.
Qed.

Lemma normalize_rings_no_crossing (validate : bool) (i : nat) (rings : list Ring)
    (st : split_state) :
  forallb (ring_no_crossing dlon_threshold_default) rings = true ->
  (validate = true -> forallb (forallb lon_valid) rings = true) ->
  (i <> 0%nat -> exists sb, shell_x st = Some sb) ->
  (i = 0%nat -> forall r tl, rings = r :: tl -> r <> []) ->
  exists coords st',
    normalize_rings validate i rings st = Ok (coords, st')
    /\ split_meridians st' = split_meridians st.
Proof.
  revert i st. induction rings as [|ring tl IH]; intros i st Hnc Hv Hsh Hne.
  - simpl. eauto.
  - simpl in Hnc. apply andb_true_iff in Hnc as [Hr Hnc].
    assert (exists h st1, normalize_ring validate i ring st = Ok (h, st1)
                          /\ split_meridians st1 = split_meridians st
                          /\ exists sb, shell_x st1 = Some sb) as (h & st1 & Hh & Hm & Hs1).
    { destruct ring as [|first rest].
      - destruct (Nat.eq_dec i 0%nat) as [->|Hi].
        + exfalso. eapply (Hne eq_refl); reflexivity.
        + exists [], st. simpl. split; [reflexivity|]. split; [reflexivity|]. exact (Hsh Hi).
      - destruct (unwrap_ring_no_crossing validate first rest Hr) as [b Hu].
        { intros Ht. specialize (Hv Ht). simpl in Hv.
          apply andb_true_iff in Hv as [Hv _]. exact Hv. }
        unfold normalize_ring. rewrite Hu. simpl.
        unfold align. destruct b as [mn mx].
        destruct (Nat.eqb i 0) eqn:Ei.
        + simpl. eauto 6.
        + apply Nat.eqb_neq in Ei. destruct (Hsh Ei) as [[smin smax] ->].
          destruct (Qltb mn smin); [simpl; eauto 6|].
          destruct (Qgtb mx smax); simpl; eauto 6. }
    destruct (IH (S i) st1) as (coords & st' & Ht & Hm').
    + exact Hnc.
    + intros Hval. specialize (Hv Hval). simpl in Hv.
      apply andb_true_iff in Hv as [_ Hv]. exact Hv.
    + intros _. exact Hs1.
    + intros [=].
    + exists (h :: coords), st'. simpl. rewrite Hh. simpl. rewrite Ht. simpl.
      split; [reflexivity | congruence].
Qed.

(** ** Pass-through when no meridian is selected *)

Lemma list_eqb_refl {A : Type} (eqb : A -> A -> bool) (l : list A) :
  (forall x, eqb x x = true) -> list_eqb eqb l l = true.
Proof.
  intros Hrefl. induction l as [|x l IH]; simpl; [reflexivity|].
  rewrite Hrefl, IH. reflexivity.
Qed.

Lemma polygon_eqb_refl (p : Polygon) : polygon_eqb p p = true.
Proof.
  apply list_eqb_refl. intros r. apply list_eqb_refl. intros c.
  unfold coord_eqb. rewrite !Qeq_bool_refl. reflexivity.
Qed.

Lemma translate_polygon_in_range (p : Polygon) (b : Q * Q) :
  bounds p = Some b -> in_range b -> translate_polygon p = p.
Proof.
  unfold translate_polygon, in_range. intros -> [H1 H2]. destruct b as [mn mx]. simpl in *.
  apply Qltb_ge in H1. apply Qgtb_le in H2. rewrite H1, H2. reflexivity.
Qed.

Section PassThrough.

Variable ops_split : Polygon -> Q -> option GeometryCollection.

Lemma split_polygon_no_marks (p : Polygon) (validate : bool) (coords : Polygon)
    (st : split_state) :
  normalize_rings validate 0 p initial_state = Ok (coords, st) ->
  split_meridians st = ∅ ->
  p <> [] ->
  split_polygon ops_split p validate = Ok [translate_polygon p].
Proof.
  intros Hn Hm Hp. unfold split_polygon. rewrite Hn. simpl. rewrite Hm.
  rewrite size_empty. simpl. destruct p as [|shell holes]; [congruence|]. reflexivity.
Qed.

End PassThrough.

(** C10 (as the code has it). When the ring loop selects no meridian,
    [split_polygon] builds its single fragment from the coordinates of the
    input, not from the unwrapped copy [coords], whatever crossings were
    detected; the range re-wrap then applies to it: the fragment is the input
    exactly when the bounds of the input lie within [-180, 180], and the
    input moved by 360 degrees otherwise. *)
Theorem no_meridian_keeps_input
    (ops_split : Polygon -> Q -> option GeometryCollection)
    (p : Polygon) (validate : bool) (coords : Polygon) (st : split_state) :
  normalize_rings validate 0 p initial_state = Ok (coords, st) ->
  split_meridians st = ∅ ->
  p <> [] ->
  split_polygon ops_split p validate = Ok [translate_polygon p]
  /\ (forall b, bounds p = Some b -> in_range b -> translate_polygon p = p)
  /\ (forall b, bounds p = Some b -> fst b < -180 -> translate_polygon p = translate 360 p)
  /\ (forall b, bounds p = Some b -> -180 <= fst b -> 180 < snd b ->
        translate_polygon p = translate (-360) p).
Proof.
  intros Hn Hm Hp. split; [eapply split_polygon_no_marks; eassumption|].
  split; [apply translate_polygon_in_range|]. split.
  - intros [mn mx] Hb Hlt. simpl in Hlt. unfold translate_polygon. rewrite Hb.
    apply Qltb_lt in Hlt. rewrite Hlt. reflexivity.
  - intros [mn mx] Hb Hge Hgt. simpl in Hge, Hgt. unfold translate_polygon. rewrite Hb.
    apply Qltb_ge in Hge. apply Qgtb_gt in Hgt. rewrite Hge, Hgt. reflexivity.
Qed.

Lemma no_meridian_keeps_input_witness :
  normalize_rings false 0 [rect (-10) 180 0 1] initial_state
  = Ok ([rect (-10) (-180) 0 1],
        {| shell_x := Some (-180, -10); split_meridians := ∅ |})
  /\ split_polygon convex_split [rect (-10) 180 0 1] false = Ok [[rect (-10) 180 0 1]].
Proof.
  assert (normalize_rings false 0 [rect (-10) 180 0 1] initial_state
          = Ok ([rect (-10) (-180) 0 1],
                {| shell_x := Some (-180, -10); split_meridians := ∅ |})) as Hn.
  { vm_compute. reflexivity. }
  split; [exact Hn|].
  destruct (no_meridian_keeps_input convex_split [rect (-10) 180 0 1] false _ _ Hn)
    as (Hs & Hin & _).
  - reflexivity.
  - discriminate.
  - rewrite Hs. rewrite (Hin (-10, 180)); [reflexivity | vm_compute; reflexivity |].
    split; simpl; lra.
Defined.

(** The claim C10 as stated fails on a polygon that reaches beyond 180: no
    meridian is selected for it, crossings are detected, and the fragment
    returned is the input moved by -360. *)
Lemma no_meridian_exact_counterexample :
  ~ (forall (ops_split : Polygon -> Q -> option GeometryCollection)
            (p : Polygon) (validate : bool) (coords : Polygon) (st : split_state),
       normalize_rings validate 0 p initial_state = Ok (coords, st) ->
       split_meridians st = ∅ ->
       exists fragment,
         split_polygon ops_split p validate = Ok [fragment]
         /\ polygon_eqb fragment p = true).
Proof.
  intros H.
  destruct (H convex_split [rect 170 360 0 1] false
              [[(170, 0); (0, 0); (0, 1); (170, 1); (170, 0)]]
              {| shell_x := Some (0, 170); split_meridians := ∅ |})
    as (fragment & Hs & He).
  - vm_compute. reflexivity.
  - reflexivity.
  - vm_compute in Hs. injection Hs as <-. vm_compute in He. discriminate.
Qed.

(** C4 (as the code has it). A polygon in which no two consecutive vertices
    of any ring are further apart in longitude than the threshold, whose shell
    is not empty and lies within [-180, 180] (and, under [validate], whose
    longitudes all do), is returned as the single fragment, unchanged. *)
Theorem no_crossing_single_fragment
    (ops_split : Polygon -> Q -> option GeometryCollection)
    (p : Polygon) (validate : bool) (b : Q * Q) :
  no_crossing p = true ->
  bounds p = Some b ->
  in_range b ->
  (validate = true -> forallb (forallb lon_valid) p = true) ->
  exists fragment,
    split_polygon ops_split p validate = Ok [fragment]
    /\ fragment = p
    /\ polygon_eqb fragment p = true.
Proof.
  intros Hnc Hb Hr Hv.
  destruct (normalize_rings_no_crossing validate 0 p initial_state Hnc Hv)
    as (coords & st & Hn & Hm).
  - intros Hi. exfalso. apply Hi. reflexivity.
  - intros _ r tl -> ->. discriminate.
  - exists p. split; [|split; [reflexivity | apply polygon_eqb_refl]].
    rewrite (split_polygon_no_marks ops_split p validate coords st Hn Hm).
    + rewrite (translate_polygon_in_range p b Hb Hr). reflexivity.
    + intros ->. discriminate.
Qed.

Lemma no_crossing_single_fragment_witness :
  exists fragment,
    split_polygon convex_split [rect (-100) 80 0 60; rect (-40) 20 10 30] true
    = Ok [fragment]
    /\ fragment = [rect (-100) 80 0 60; rect (-40) 20 10 30]
    /\ polygon_eqb fragment [rect (-100) 80 0 60; rect (-40) 20 10 30] = true.
Proof.
  apply (no_crossing_single_fragment convex_split _ true (-100, 80)).
  - vm_compute. reflexivity.
  - vm_compute. reflexivity.
  - split; vm_compute; discriminate.
  - intros _. vm_compute. reflexivity.
Defined.

(** The claim C4 as stated fails on a polygon beyond 180: no two consecutive
    vertices are further apart than the threshold, and the single fragment is
    the input moved by -360. *)
Lemma no_crossing_single_fragment_counterexample :
  ~ (forall (ops_split : Polygon -> Q -> option GeometryCollection) (p : Polygon),
       no_crossing p = true ->
       exists fragment,
         split_polygon ops_split p false = Ok [fragment]
         /\ polygon_eqb fragment p = true).
Proof.
  intros H.
  destruct (H convex_split [rect 200 201 0 1]) as (fragment & Hs & He).
  - vm_compute. reflexivity.
  - vm_compute in Hs. injection Hs as <-. vm_compute in He. discriminate.
Qed.

(** ** Hole containment *)

Lemma align_within (i : nat) (sb b hb : Q * Q) (ring h : Ring) (sh : option (Q * Q)) :
  align i (Some sb) ring b = Ok (h, hb, sh) ->
  i <> 0%nat ->
  nests_in_frame sb b ->
  within hb sb.
Proof.
  unfold align, nests_in_frame, within. destruct b as [mn mx], sb as [smin smax].
  intros H Hi (k & Hk & H1 & H2). simpl in *.
  apply Nat.eqb_neq in Hi. rewrite Hi in H.
  destruct (Qltb mn smin) eqn:E1.
  { injection H as <- <- <-. simpl. qcases. destruct Hk as [Hk|[Hk|Hk]]; lra. }
  destruct (Qgtb mx smax) eqn:E2.
  { injection H as <- <- <-. simpl. qcases. destruct Hk as [Hk|[Hk|Hk]]; lra. }
  injection H as <- <- <-. simpl. qcases. lra.
Qed.

Lemma holes_loop (validate : bool) (i : nat) (holes coords : list Ring)
    (st st' : split_state) (sb : Q * Q) :
  normalize_rings validate i holes st = Ok (coords, st') ->
  i <> 0%nat ->
  shell_x st = Some sb ->
  shell_x st' = Some sb
  /\ forall j hole, coords !! j = Some hole -> hole <> [] ->
       exists first rest r b n hb,
         holes !! j = Some (first :: rest)
         /\ unwrap_ring validate first rest = Ok (r, b, n)
         /\ align (i + j) (Some sb) r b = Ok (hole, hb, Some sb)
         /\ ring_bounds hole = Some hb.
Proof.
  revert i st coords. induction holes as [|ring tl IH]; intros i st coords H Hi Hsh.
  - injection H as <- <-. split; [assumption|]. intros j hole Hj. discriminate.
  - apply normalize_rings_cons in H as (h & st1 & tl' & Hr & Ht & ->).
    destruct ring as [|first rest].
    + injection Hr as <- <-.
      destruct (IH _ _ _ Ht (Nat.neq_succ_0 i) Hsh) as [Hs' Hall].
      split; [assumption|]. intros [|j] hole Hj Hne; simpl in Hj.
      * injection Hj as <-. congruence.
      * destruct (Hall j hole Hj Hne) as (f & rs & r & b & n & hb & H1 & H2 & H3 & H4).
        exists f, rs, r, b, n, hb. rewrite Nat.add_succ_r. auto.
    + apply normalize_ring_inv in Hr as (r & b & n & hb & Hu & Ha & Hb & _ & _).
      rewrite Hsh in Ha.
      assert (shell_x st1 = Some sb) as Hs1.
      { apply align_shell in Ha as [(Hz & _)|(_ & Hs & _)]; congruence. }
      destruct (IH _ _ _ Ht (Nat.neq_succ_0 i) Hs1) as [Hs' Hall].
      split; [assumption|]. intros [|j] hole Hj Hne; simpl in Hj.
      * injection Hj as <-. exists first, rest, r, b, n, hb.
        rewrite Nat.add_0_r. rewrite Hs1 in Ha. auto.
      * destruct (Hall j hole Hj Hne) as (f & rs & r' & b' & n' & hb' & H1 & H2 & H3 & H4).
        exists f, rs, r', b', n', hb'. rewrite Nat.add_succ_r. auto.
Qed.

Lemma no_shell_loop (validate : bool) (i : nat) (holes coords : list Ring)
    (st st' : split_state) :
  normalize_rings validate i holes st = Ok (coords, st') ->
  i <> 0%nat ->
  shell_x st = None ->
  forall j hole, coords !! j = Some hole -> hole = [].
Proof.
  revert i st coords. induction holes as [|ring tl IH]; intros i st coords H Hi Hsh.
  - injection H as <- <-. intros j hole Hj. discriminate.
  - apply normalize_rings_cons in H as (h & st1 & tl' & Hr & Ht & ->).
    destruct ring as [|first rest].
    + injection Hr as <- <-. intros [|j] hole Hj; simpl in Hj.
      * congruence.
      * eapply (IH _ _ _ Ht (Nat.neq_succ_0 i) Hsh), Hj.
    + apply normalize_ring_inv in Hr as (r & b & n & hb & _ & Ha & _).
      rewrite Hsh in Ha. unfold align in Ha. destruct b as [mn mx].
      apply Nat.eqb_neq in Hi. rewrite Hi in Ha. discriminate.
Qed.

Lemma shell_then_holes (validate : bool) (p coords : Polygon) (st : split_state)
    (j : nat) (hole : Ring) :
  normalize_rings validate 0 p initial_state = Ok (coords, st) ->
  coords !! S j = Some hole ->
  hole <> [] ->
  exists shell sb first rest r b n hb,
    coords !! 0%nat = Some shell
    /\ ring_bounds shell = Some sb
    /\ shell_x st = Some sb
    /\ p !! S j = Some (first :: rest)
    /\ unwrap_ring validate first rest = Ok (r, b, n)
    /\ align (S j) (Some sb) r b = Ok (hole, hb, Some sb)
    /\ ring_bounds hole = Some hb.
Proof.
  intros Hn Hj Hne. destruct p as [|ring0 holes].
  { injection Hn as <- <-. discriminate. }
  apply normalize_rings_cons in Hn as (shell & st1 & holes' & Hr & Ht & ->).
  simpl in Hj. destruct ring0 as [|first0 rest0].
  - injection Hr as <- <-. exfalso. apply Hne.
    eapply (no_shell_loop _ _ _ _ _ _ Ht); [discriminate | reflexivity | exact Hj].
  - apply normalize_ring_inv in Hr as (r0 & b0 & n0 & sb & Hu0 & Ha0 & Hb0 & _ & _).
    assert (shell_x st1 = Some sb) as Hs1.
    { apply align_shell in Ha0 as [(_ & Hs & _ & ->)|(Hz & _)]; [assumption|congruence]. }
    destruct (holes_loop _ _ _ _ _ _ sb Ht (Nat.neq_succ_0 0) Hs1) as [Hs' Hall].
    destruct (Hall j hole Hj Hne) as (f & rs & r & b & n & hb & H1 & H2 & H3 & H4).
    exists shell, sb, f, rs, r, b, n, hb. simpl. auto 10.
Qed.

(** C6. For every polygon, that is when every hole fits the shell in a
    common frame (its unwrapped bounds lie within the unwrapped bounds of the
    shell as they are or a whole turn away, the invariant of a polygon), after
    the alignment of the ring loop the bounding box of every hole ring lies
    within the bounding box of the shell ring. *)
Theorem holes_within_shell (validate : bool) (p coords : Polygon) (st : split_state) :
  normalize_rings validate 0 p initial_state = Ok (coords, st) ->
  (forall j first rest r b n sb,
     j <> 0%nat ->
     p !! j = Some (first :: rest) ->
     unwrap_ring validate first rest = Ok (r, b, n) ->
     shell_x st = Some sb ->
     nests_in_frame sb b) ->
  forall j hole,
    j <> 0%nat -> coords !! j = Some hole -> hole <> [] ->
    exists shell sb hb,
      coords !! 0%nat = Some shell
      /\ ring_bounds shell = Some sb
      /\ ring_bounds hole = Some hb
      /\ within hb sb.
Proof.
  intros Hn Hfit [|j] hole Hj0 Hj Hne; [congruence|].
  destruct (shell_then_holes _ _ _ _ _ _ Hn Hj Hne)
    as (shell & sb & f & rs & r & b & n & hb & H0 & Hsb & Hst & Hp & Hu & Ha & Hhb).
  exists shell, sb, hb. repeat split; try assumption.
  - eapply align_within; [exact Ha | discriminate |].
    eapply (Hfit (S j)); eauto.
  - eapply align_within; [exact Ha | discriminate |].
    eapply (Hfit (S j)); eauto.
Qed.

Lemma holes_within_shell_witness :
  exists shell sb hb,
    [[(170, 0); (190, 0); (190, 10); (170, 10); (170, 0)]; rect 182 185 2 5] !! 0%nat
      = Some shell
    /\ ring_bounds shell = Some sb
    /\ ring_bounds (rect 182 185 2 5) = Some hb
    /\ within hb sb.
Proof.
  apply (holes_within_shell false holed_example
           [[(170, 0); (190, 0); (190, 10); (170, 10); (170, 0)]; rect 182 185 2 5]
           {| shell_x := Some (170, 190); split_meridians := {[ 180%Z ]} |})
    with (j := 1%nat).
  - vm_compute. reflexivity.
  - intros [|[|j]] first rest r b n sb Hj Hp Hu Hs; simpl in Hp, Hs.
    + congruence.
    + injection Hp as <- <-. injection Hs as <-. vm_compute in Hu. injection Hu as <- <- <-.
      exists 360. split; [right; right; reflexivity|]. simpl. lra.
    + discriminate.
  - discriminate.
  - reflexivity.
  - discriminate.
Defined.

(** The invariant is needed: rings that are not a polygon, the second
    outside the first in every frame, are not brought together by the
    alignment, which moves the second ring by one turn and checks nothing. *)
Remark stray_hole_not_aligned :
  normalize_rings false 0 stray_hole_example initial_state
  = Ok ([rect 0 10 0 10; rect (-340) (-330) 2 3],
        {| shell_x := Some (0, 10); split_meridians := ∅ |}).
Proof. vm_compute. reflexivity. Qed.

(** ** Area under translation *)

Lemma final_lat_app (prev first : Coord) (tl : Ring) :
  final_lat prev (tl ++ [first]) = snd first.
Proof.
  revert prev. induction tl as [|c tl IH]; intros prev; simpl; [reflexivity|]. apply IH.
Qed.

Lemma final_lat_translate (d : Q) (prev : Coord) (rest : Ring) :
  final_lat (translate_coord d prev) (translate_ring d rest) = final_lat prev rest.
Proof.
  revert prev. induction rest as [|c tl IH]; intros prev; [reflexivity|]. apply IH.
Qed.

Lemma shoelace_translate (d : Q) (prev : Coord) (rest : Ring) :
  shoelace (translate_coord d prev) (translate_ring d rest)
  == shoelace prev rest + d * (final_lat prev rest - snd prev).
Proof.
  revert prev. induction rest as [|c tl IH]; intros prev.
  - cbn [shoelace translate_ring map final_lat]. ring.
  - cbn [shoelace translate_ring map final_lat]. fold (translate_ring d tl).
    rewrite IH. unfold translate_coord. cbn [fst snd]. ring.
Qed.

Lemma ring_area_translate (d : Q) (r : Ring) :
  ring_area (translate_ring d r) == ring_area r.
Proof.
  destruct r as [|first tl]; [reflexivity|].
  unfold ring_area. cbn [translate_ring map]. fold (translate_ring d tl).
  change [translate_coord d first] with (translate_ring d [first]).
  unfold translate_ring at 1 2. rewrite <- map_app. fold (translate_ring d (tl ++ [first])).
  unfold Qdiv. apply Qmult_comp; [|reflexivity]. apply Qabs_wd.
  rewrite shoelace_translate, final_lat_app. ring.
Qed.

Lemma holes_area_translate (d : Q) (holes : list Ring) :
  fold_right (fun h acc => ring_area h + acc) 0 (map (translate_ring d) holes)
  == fold_right (fun h acc => ring_area h + acc) 0 holes.
Proof.
  induction holes as [|h tl IH]; [reflexivity|].
  cbn [map fold_right]. rewrite IH, ring_area_translate. reflexivity.
Qed.

Lemma area_translate (d : Q) (p : Polygon) : area (translate d p) == area p.
Proof.
  destruct p as [|shell holes]; [reflexivity|].
  unfold area, translate. cbn [map].
  rewrite holes_area_translate, ring_area_translate. reflexivity.
Qed.

Lemma area_translate_polygon (p : Polygon) : area (translate_polygon p) == area p.
Proof.
  unfold translate_polygon. destruct (bounds p) as [[mn mx]|]; [|reflexivity].
  destruct (Qltb mn (-180)); [apply area_translate|].
  destruct (Qgtb mx 180); [apply area_translate|reflexivity].
Qed.

Lemma total_area_translate_polygons (gc : GeometryCollection) :
  total_area (translate_polygons gc) == total_area gc.
Proof.
  induction gc as [|p tl IH]; [reflexivity|].
  unfold total_area, translate_polygons in *. cbn [map fold_right].
  rewrite IH, area_translate_polygon. reflexivity.
Qed.

(** ** The example of the docstring *)

Lemma spans_kept (p : Polygon) (a b : Q) :
  -180 <= a -> b <= 180 -> spans p a b -> translate_polygon p = p.
Proof.
  unfold spans. intros Ha Hb Hs. destruct (bounds p) as [[mn mx]|] eqn:E; [|contradiction].
  destruct Hs as [Hmn Hmx]. apply (translate_polygon_in_range p (mn, mx) E).
  split; simpl; lra.
Qed.

Lemma spans_moved_west (p : Polygon) (a b : Q) :
  -180 <= a -> 180 < b -> spans p a b -> spans (translate_polygon p) (a - 360) (b - 360).
Proof.
  unfold spans, translate_polygon. intros Ha Hb Hs.
  destruct (bounds p) as [[mn mx]|] eqn:E; [|contradiction].
  destruct Hs as [Hmn Hmx].
  assert (Qltb mn (-180) = false) as -> by (apply Qltb_ge; lra).
  assert (Qgtb mx 180 = true) as -> by (apply Qgtb_gt; lra).
  rewrite bounds_translate, E. simpl. split; lra.
Qed.

Lemma example_split_call (ops_split : Polygon -> Q -> option GeometryCollection) :
  split_polygon ops_split [example_ring] false
  = match ops_split [example_unwrapped] 180 with
    | Some split_polygons => Ok (translate_polygons split_polygons)
    | None => Raise GeometryError
    end.
Proof. vm_compute. reflexivity. Qed.

(** C1. On the polygon whose ring is [[179,0],[-179,0],[-179,1],[179,1],
    [179,0]] the ring is unwrapped to the longitudes 179 to 181 and cut on the
    meridian 180.  When the split primitive cuts the unwrapped polygon in two
    fragments, one from 179 to 180 and one from 180 to 181, of the same total
    area, [split_polygon] returns exactly two fragments, one from 179 to 180
    and one from -180 to -179, and their areas add up to the area of the
    unsplit unwrapped ring, 2 square degrees. *)
Theorem docstring_example_split
    (ops_split : Polygon -> Q -> option GeometryCollection)
    (pieces : GeometryCollection) :
  ops_split [example_unwrapped] 180 = Some pieces ->
  length pieces = 2%nat ->
  (exists west east,
     west ∈ pieces /\ east ∈ pieces /\ spans west 179 180 /\ spans east 180 181) ->
  total_area pieces == area [example_unwrapped] ->
  exists out,
    split_polygon ops_split [example_ring] false = Ok out
    /\ length out = 2%nat
    /\ (exists a b, a ∈ out /\ b ∈ out /\ spans a 179 180 /\ spans b (-180) (-179))
    /\ total_area out == area [example_unwrapped]
    /\ area [example_unwrapped] == 2.
Proof.
  intros Hsplit Hlen (west & east & Hw & He & Hsw & Hse) Harea.
  exists (translate_polygons pieces). split; [|split; [|split; [|split]]].
  - rewrite example_split_call, Hsplit. reflexivity.
  - unfold translate_polygons. rewrite length_map. exact Hlen.
  - exists (translate_polygon west), (translate_polygon east).
    split; [|split; [|split]].
    + apply list_elem_of_In, in_map, list_elem_of_In, Hw.
    + apply list_elem_of_In, in_map, list_elem_of_In, He.
    + rewrite (spans_kept west 179 180); [exact Hsw | lra | lra | exact Hsw].
    + apply (spans_moved_west east 180 181); [lra | lra | exact Hse].
  - rewrite total_area_translate_polygons. exact Harea.
  - vm_compute. reflexivity.
Qed.

Lemma docstring_example_split_witness :
  exists out,
    split_polygon convex_split [example_ring] false = Ok out
    /\ length out = 2%nat
    /\ (exists a b, a ∈ out /\ b ∈ out /\ spans a 179 180 /\ spans b (-180) (-179))
    /\ total_area out == area [example_unwrapped]
    /\ area [example_unwrapped] == 2.
Proof.
  eapply (docstring_example_split convex_split).
  - vm_compute. reflexivity.
  - reflexivity.
  - eexists _, _. split; [apply list_elem_of_In; left; reflexivity|].
    split; [apply list_elem_of_In; right; left; reflexivity|].
    split; vm_compute; split; reflexivity.
  - vm_compute. reflexivity.
Defined.

(** Read as planar coordinates without unwrapping, the same ring is a strip
    358 degrees wide: the 2 square degrees are the area of the unwrapped
    ring. *)
Remark example_ring_raw_area :
  area [example_ring] == 358 /\ area [example_unwrapped] == 2.
Proof. split; vm_compute; reflexivity. Qed.

(** * Further properties of the code *)

(** ** [check_crossing], lines 8-17 *)


(** X1. The crossing check does not depend on the order of its two
    longitudes, and without validation it does not depend on where the pair
    lies: moving both longitudes by the same amount gives the same answer. *)
Theorem check_crossing_symmetric (lon1 lon2 : Q) (validate : bool) (thr : Q) :
  check_crossing lon1 lon2 validate thr = check_crossing lon2 lon1 validate thr
  /\ forall d, check_crossing (lon1 + d) (lon2 + d) false thr
               = check_crossing lon1 lon2 false thr.
Proof.
  split.
  - unfold check_crossing. cbn [existsb]. rewrite !orb_false_r.
    rewrite (orb_comm (Qgtb (Qabs lon1) 180)), (Qabs_Qminus lon2 lon1). reflexivity.
  - intros d. unfold check_crossing. cbn [andb]. f_equal.
    unfold Qgtb. apply Qltb_iff_eq.
    assert (Qabs (lon2 + d - (lon1 + d)) == Qabs (lon2 - lon1)) as ->
      by (apply Qabs_wd; ring).
    reflexivity.
Qed.

(** ** [translate_polygons], lines 20-32 *)

Lemma translate_polygons_lookup (gc : GeometryCollection) (i : nat) (p : Polygon) :
  gc !! i = Some p -> translate_polygons gc !! i = Some (translate_polygon p).
Proof.
  revert i. induction gc as [|q gc IH]; intros [|i] H; simpl in *; try discriminate.
  - congruence.
  - apply IH, H.
Qed.

Lemma translate_polygon_west (p : Polygon) (b : Q * Q) :
  bounds p = Some b -> -540 <= fst b -> snd b <= -180 ->
  exists b', bounds (translate_polygon p) = Some b' /\ in_range b'.
Proof.
  intros Hb H1 H2. pose proof Hb as Hord. destruct p as [|shell holes]; [discriminate|].
  apply ring_bounds_ordered in Hord. destruct b as [mn mx]. simpl in *.
  unfold translate_polygon. cbn [bounds]. rewrite Hb.
  destruct (Qltb mn (-180)) eqn:E1.
  - rewrite bounds_translate. cbn [bounds]. rewrite Hb. eexists. split; [reflexivity|].
    split; simpl; lra.
  - qcases. assert (Qgtb mx 180 = false) as -> by (apply Qgtb_le; lra).
    cbn [bounds]. rewrite Hb. eexists. split; [reflexivity|]. split; simpl; lra.
Qed.

Lemma translate_polygon_east (p : Polygon) (b : Q * Q) :
  bounds p = Some b -> 180 <= fst b -> snd b <= 540 ->
  exists b', bounds (translate_polygon p) = Some b' /\ in_range b'.
Proof.
  intros Hb H1 H2. pose proof Hb as Hord. destruct p as [|shell holes]; [discriminate|].
  apply ring_bounds_ordered in Hord. destruct b as [mn mx]. simpl in *.
  unfold translate_polygon. cbn [bounds]. rewrite Hb.
  assert (Qltb mn (-180) = false) as -> by (apply Qltb_ge; lra).
  destruct (Qgtb mx 180) eqn:E2.
  - rewrite bounds_translate. cbn [bounds]. rewrite Hb. eexists. split; [reflexivity|].
    split; simpl; lra.
  - qcases. cbn [bounds]. rewrite Hb. eexists. split; [reflexivity|]. split; simpl; lra.
Qed.

(** X2. The range re-wrap keeps the number and the order of the fragments;
    it leaves a fragment within [-180, 180] as it is, and it brings a
    fragment that lies wholly west of -180 (down to -540) or wholly east of
    180 (up to 540) into [-180, 180]. *)
Theorem translate_polygons_into_range (gc : GeometryCollection) :
  length (translate_polygons gc) = length gc
  /\ forall i p b,
       gc !! i = Some p -> bounds p = Some b ->
       (in_range b -> translate_polygons gc !! i = Some p)
       /\ ((-540 <= fst b /\ snd b <= -180) \/ (180 <= fst b /\ snd b <= 540) ->
           exists q b', translate_polygons gc !! i = Some q
                        /\ bounds q = Some b' /\ in_range b').
Proof.
  split; [apply length_map|]. intros i p b Hi Hb.
  rewrite (translate_polygons_lookup _ _ _ Hi). split.
  - intros Hr. rewrite (translate_polygon_in_range p b Hb Hr). reflexivity.
  - intros [[H1 H2]|[H1 H2]].
    + destruct (translate_polygon_west p b Hb H1 H2) as (b' & Hb' & Hr'). eauto.
    + destruct (translate_polygon_east p b Hb H1 H2) as (b' & Hb' & Hr'). eauto.
Qed.

(** A fragment that straddles the meridian -180 is moved as a whole and ends
    partly beyond 180: the re-wrap alone does not bring it into range. *)
Remark translate_polygon_straddling :
  bounds (translate_polygon [rect (-200) (-100) 0 1]) = Some (160, 260).
Proof. vm_compute. reflexivity. Qed.

(** ** The inner loop of [split_polygon], lines 78-90 *)


Lemma copysign1_cases (x : Q) : copysign1 x = 1 \/ copysign1 x = -1.
Proof. unfold copysign1. destruct (Qle_bool 0 x); auto. Qed.

Lemma unwrap_tail_turns (validate : bool) (lon_prev minx maxx : Q) (n : nat)
    (rest out : Ring) (b : Q * Q) (n' : nat) :
  unwrap_tail validate lon_prev minx maxx n rest = Ok (out, b, n') ->
  Forall2 one_turn rest out /\ (n <= n')%nat /\ (n' = n -> out = rest).
Proof.
  revert lon_prev minx maxx n out b n'.
  induction rest as [|[lon lat] tl IH]; intros lon_prev minx maxx n out b n' H.
  - injection H as <- <- <-. repeat split; [constructor | lia].
  - cbn [unwrap_tail] in H. bind_inv H. bind_inv H. destruct r0 as [[t bb] m].
    injection H as <- <- <-. apply IH in Hr0 as (Hall & Hle & Hid).
    destruct r as [|].
    + split; [|split; [lia | lia]].
      constructor; [|exact Hall]. split; [reflexivity|]. cbn [fst].
      destruct (copysign1_cases (lon - lon_prev)) as [-> | ->].
      * right. left. ring.
      * right. right. ring.
    + split; [|split; [exact Hle|]].
      * constructor; [|exact Hall]. split; [reflexivity|]. left. reflexivity.
      * intros Hn. rewrite (Hid Hn). reflexivity.
Qed.

(** X4. A ring for which the inner loop counts no crossing comes out of it
    unchanged, whatever [validate] is. *)
Theorem unwrap_ring_no_crossing_identity (validate : bool) (first : Coord)
    (rest r : Ring) (b : Q * Q) :
  unwrap_ring validate first rest = Ok (r, b, 0%nat) ->
  r = first :: rest /\ ring_bounds (first :: rest) = Some b.
Proof.
  intros H. pose proof (unwrap_ring_bounds _ _ _ _ _ _ H) as [Hb _].
  unfold unwrap_ring in H. bind_inv H. destruct r0 as [[t bb] m].
  injection H as Hx Hy Hz. subst r bb m.
  apply unwrap_tail_turns in Hr as (_ & _ & Hid).
  specialize (Hid eq_refl). subst t. auto.
Qed.

Lemma unwrap_ring_no_crossing_identity_witness :
  rect (-100) 80 0 60 = rect (-100) 80 0 60
  /\ ring_bounds (rect (-100) 80 0 60) = Some (-100, 80).
Proof.
  apply (unwrap_ring_no_crossing_identity true (-100, 0)
           [(80, 0); (80, 60); (-100, 60); (-100, 0)]).
  vm_compute. reflexivity.
Defined.


Lemma lower_cases (m x : Q) : (lower m x = m /\ m <= x) \/ (lower m x = x /\ x < m).
Proof. unfold lower. destruct (Qltb x m) eqn:E; qcases; auto. Qed.

Lemma upper_cases (m x : Q) : (upper m x = m /\ x <= m) \/ (upper m x = x /\ m < x).
Proof. unfold upper. destruct (Qgtb x m) eqn:E; qcases; auto. Qed.

Lemma lon_range_exact (minx maxx : Q) (r : Ring) :
  (fst (lon_range minx maxx r) <= minx /\ maxx <= snd (lon_range minx maxx r))
  /\ (forall c, In c r ->
        fst (lon_range minx maxx r) <= fst c /\ fst c <= snd (lon_range minx maxx r))
  /\ (fst (lon_range minx maxx r) = minx
      \/ exists c, In c r /\ fst c = fst (lon_range minx maxx r))
  /\ (snd (lon_range minx maxx r) = maxx
      \/ exists c, In c r /\ fst c = snd (lon_range minx maxx r)).
Proof.
  revert minx maxx. induction r as [|c tl IH]; intros minx maxx.
  - cbn [lon_range fst snd]. split; [split; lra|]. split; [intros c []|].
    split; left; reflexivity.
  - cbn [lon_range].
    destruct (IH (lower minx (fst c)) (upper maxx (fst c))) as ((H1 & H2) & Hin & Hlo & Hhi).
    destruct (lower_cases minx (fst c)) as [[El Hl]|[El Hl]];
      destruct (upper_cases maxx (fst c)) as [[Eu Hu]|[Eu Hu]];
      rewrite El, Eu in *;
      (split; [split; lra|]);
      (split; [intros c' [<-|Hc']; [split; lra | apply Hin, Hc']|]);
      (split;
       [destruct Hlo as [Hlo|(c' & Hc' & Hlo)];
          [first [left; exact Hlo | right; exists c; split; [left; reflexivity | congruence]]
          | right; exists c'; split; [right; exact Hc' | exact Hlo]]
       |destruct Hhi as [Hhi|(c' & Hc' & Hhi)];
          [first [left; exact Hhi | right; exists c; split; [left; reflexivity | congruence]]
          | right; exists c'; split; [right; exact Hc' | exact Hhi]]]).
Qed.

(** X6. The bounds the inner loop tracks are the exact bounds of the
    unwrapped ring: every vertex of the ring lies between them, and each of
    them is the longitude of some vertex. *)
Theorem unwrap_ring_bounds_exact (validate : bool) (first : Coord) (rest r : Ring)
    (b : Q * Q) (n : nat) :
  unwrap_ring validate first rest = Ok (r, b, n) ->
  (forall c, In c r -> fst b <= fst c /\ fst c <= snd b)
  /\ (exists c, In c r /\ fst c = fst b)
  /\ (exists c, In c r /\ fst c = snd b).
Proof.
  intros H. apply unwrap_ring_bounds in H as (Hb & tl' & -> & _).
  cbn [ring_bounds] in Hb. injection Hb as <-.
  destruct (lon_range_exact (fst first) (fst first) tl') as ((H1 & H2) & Hin & Hlo & Hhi).
  split; [|split].
  - intros c [<-|Hc]; [split; assumption | apply Hin, Hc].
  - destruct Hlo as [Hlo|(c & Hc & Hlo)].
    + exists first. split; [left; reflexivity | congruence].
    + exists c. split; [right; exact Hc | exact Hlo].
  - destruct Hhi as [Hhi|(c & Hc & Hhi)].
    + exists first. split; [left; reflexivity | congruence].
    + exists c. split; [right; exact Hc | exact Hhi].
Qed.

Lemma unwrap_ring_bounds_exact_witness :
  (forall c, In c example_unwrapped -> 179 <= fst c /\ fst c <= 181)
  /\ (exists c, In c example_unwrapped /\ fst c = 179)
  /\ (exists c, In c example_unwrapped /\ fst c = 181).
Proof.
  apply (unwrap_ring_bounds_exact false (179, 0)
           [(-179, 0); (-179, 1); (179, 1); (179, 0)] example_unwrapped (179, 181) 2).
  vm_compute. reflexivity.
Defined.




(** ** The outer loop of [split_polygon], lines 74-108 *)

Lemma normalize_rings_marks_only (validate : bool) (i : nat) (rings coords : list Ring)
    (st st' : split_state) (m : Z) :
  normalize_rings validate i rings st = Ok (coords, st') ->
  m ∈ split_meridians st' ->
  m ∈ split_meridians st
  \/ exists j first rest r b n h hb,
       rings !! j = Some (first :: rest)
       /\ unwrap_ring validate first rest = Ok (r, b, n)
       /\ n <> 0%nat
       /\ coords !! j = Some h
       /\ ring_bounds h = Some hb
       /\ ((m = (-180)%Z /\ fst hb < -180) \/ (m = 180%Z /\ 180 < snd hb)).
Proof.
  revert i st coords. induction rings as [|ring tl IH]; intros i st coords H Hm.
  - injection H as <- <-. auto.
  - apply normalize_rings_cons in H as (h & st1 & tl' & Hr & Ht & ->).
    destruct (IH _ _ _ Ht Hm) as [Hm1|(j & f & rs & r & b & n & h' & hb & H1 & H2 & H3 & H4 & H5 & H6)].
    + destruct ring as [|first rest].
      * injection Hr as <- <-. auto.
      * apply normalize_ring_inv in Hr as (r & b & n & hb & Hu & _ & Hb & Hmk & _).
        rewrite Hmk in Hm1. apply mark_elem in Hm1 as [Hm1|[Hn Hcase]]; [auto|].
        right. exists 0%nat, first, rest, r, b, n, h, hb. auto 10.
    + right. exists (S j), f, rs, r, b, n, h', hb. auto 10.
Qed.

(** X9. Meridians are only ever marked for a reason: a meridian selected by
    the ring loop is -180 or 180, -180 is selected only when some ring with
    crossings reaches below -180 once unwrapped and aligned, and 180 only
    when some ring with crossings reaches above 180.  In particular a polygon
    in which no crossing is detected is never split. *)
Theorem marks_justified (validate : bool) (p coords : Polygon) (st : split_state) :
  normalize_rings validate 0 p initial_state = Ok (coords, st) ->
  (forall m, m ∈ split_meridians st ->
     (m = (-180)%Z /\ exists hb, crossed_ring validate p coords hb /\ fst hb < -180)
     \/ (m = 180%Z /\ exists hb, crossed_ring validate p coords hb /\ 180 < snd hb))
  /\ (size (split_meridians st) <= 2)%nat.
Proof.
  intros Hn.
  assert (forall m, m ∈ split_meridians st ->
     (m = (-180)%Z /\ exists hb, crossed_ring validate p coords hb /\ fst hb < -180)
     \/ (m = 180%Z /\ exists hb, crossed_ring validate p coords hb /\ 180 < snd hb)) as Hall.
  { intros m Hm.
    destruct (normalize_rings_marks_only _ _ _ _ _ _ m Hn Hm)
      as [Hm0|(j & f & rs & r & b & n & h & hb & H1 & H2 & H3 & H4 & H5 & H6)].
    - exfalso. exact (not_elem_of_empty (C:=gset Z) m Hm0).
    - destruct H6 as [[-> Hlt]|[-> Hgt]]; [left | right]; (split; [reflexivity|]);
        exists hb; (split; [|assumption]); exists j, f, rs, r, b, n, h; auto 10. }
  split; [exact Hall|].
  assert (split_meridians st ⊆ ({[ (-180)%Z ]} ∪ {[ 180%Z ]} : gset Z)) as Hsub.
  { intros m Hm. apply elem_of_union. rewrite !elem_of_singleton.
    destruct (Hall m Hm) as [[-> _]|[-> _]]; auto. }
  apply subseteq_size in Hsub. rewrite size_union in Hsub.
  - rewrite !size_singleton in Hsub. exact Hsub.
  - intros m Ha Hb. apply elem_of_singleton in Ha, Hb. lia.
Qed.

Lemma marks_justified_witness :
  (forall m, m ∈ ({[ 180%Z ]} : gset Z) ->
     (m = (-180)%Z
      /\ exists hb, crossed_ring false [example_ring] [example_unwrapped] hb /\ fst hb < -180)
     \/ (m = 180%Z
         /\ exists hb, crossed_ring false [example_ring] [example_unwrapped] hb
                       /\ 180 < snd hb))
  /\ (size ({[ 180%Z ]} : gset Z) <= 2)%nat.
Proof.
  refine (marks_justified false [example_ring] [example_unwrapped]
            {| shell_x := Some (179, 181); split_meridians := {[ 180%Z ]} |} _).
  vm_compute. reflexivity.
Defined.

(** ** Errors of [split_polygon], lines 74-129 *)

Lemma normalize_rings_total (i : nat) (rings : list Ring) (st : split_state) :
  (i <> 0%nat -> exists sb, shell_x st = Some sb) ->
  (i = 0%nat -> forall r tl, rings = r :: tl -> r <> []) ->
  exists coords st', normalize_rings false i rings st = Ok (coords, st').
Proof.
  revert i st. induction rings as [|ring tl IH]; intros i st Hsh Hne.
  - simpl. eauto.
  - assert (exists h st1, normalize_ring false i ring st = Ok (h, st1)
                          /\ exists sb, shell_x st1 = Some sb) as (h & st1 & Hh & Hs1).
    { destruct ring as [|first rest].
      - destruct (Nat.eq_dec i 0%nat) as [->|Hi].
        + exfalso. eapply (Hne eq_refl); reflexivity.
        + exists [], st. split; [reflexivity | exact (Hsh Hi)].
      - destruct (unwrap_ring_unchecked first rest) as ([[r b] n] & Hu).
        unfold normalize_ring. rewrite Hu. simpl.
        unfold align. destruct b as [mn mx].
        destruct (Nat.eqb i 0) eqn:Ei.
        + simpl. eauto 6.
        + apply Nat.eqb_neq in Ei. destruct (Hsh Ei) as [[smin smax] ->].
          destruct (Qltb mn smin); [simpl; eauto 6|].
          destruct (Qgtb mx smax); simpl; eauto 6. }
    destruct (IH (S i) st1) as (coords & st' & Ht).
    + intros _. exact Hs1.
    + intros [=].
    + exists (h :: coords), st'. simpl. rewrite Hh. simpl. rewrite Ht. reflexivity.
Qed.

(** X10. Without [validate], a polygon whose shell has at least one vertex
    can only fail in two ways: both meridians are selected, or the split
    primitive rejects the unwrapped polygon.  If the primitive never rejects,
    only the first is left. *)
Theorem split_polygon_errors (ops_split : Polygon -> Q -> option GeometryCollection)
    (p : Polygon) (b : Q * Q) (e : PyError) :
  bounds p = Some b ->
  split_polygon ops_split p false = Raise e ->
  (e = NotImplementedError_split \/ e = GeometryError)
  /\ ((forall q m, ops_split q m <> None) -> e = NotImplementedError_split).
Proof.
  intros Hb. destruct p as [|shell holes]; [discriminate|].
  destruct (normalize_rings_total 0 (shell :: holes) initial_state)
    as (coords & st & Hn).
  - intros Hi. exfalso. apply Hi. reflexivity.
  - intros _ r tl [= <- <-] ->. discriminate.
  - unfold split_polygon. rewrite Hn. simpl.
    destruct (Nat.ltb 1 (size (split_meridians st))).
    { intros [= <-]. auto. }
    destruct (if Nat.eqb _ 1 then _ else _) as [m|]; [|discriminate].
    destruct coords as [|sh hs]; [apply normalize_rings_length in Hn; discriminate|].
    destruct (ops_split (sh :: hs) (inject_Z m)) eqn:Eo; [discriminate|].
    intros [= <-]. split; [auto|]. intros Hnever. exfalso. eapply Hnever, Eo.
Qed.

Lemma split_polygon_errors_witness :
  (NotImplementedError_split = NotImplementedError_split
   \/ NotImplementedError_split = GeometryError)
  /\ ((forall q m, convex_split q m <> None) ->
      NotImplementedError_split = NotImplementedError_split).
Proof.
  apply (split_polygon_errors convex_split [zigzag_ring] (-170, 170)).
  - vm_compute. reflexivity.
  - vm_compute. reflexivity.
Defined.

(** ** What [validate] changes, lines 15-16 and 83 *)

Lemma check_crossing_validate (lon1 lon2 thr : Q) :
  check_crossing lon1 lon2 true thr = Raise ValueError_longitudes
  \/ check_crossing lon1 lon2 true thr = check_crossing lon1 lon2 false thr.
Proof.
  unfold check_crossing. cbn [andb]. destruct (existsb _ _); auto.
Qed.

Lemma unwrap_tail_validate (lon_prev minx maxx : Q) (n : nat) (rest : Ring) :
  unwrap_tail true lon_prev minx maxx n rest = Raise ValueError_longitudes
  \/ unwrap_tail true lon_prev minx maxx n rest
     = unwrap_tail false lon_prev minx maxx n rest.
Proof.
  revert lon_prev minx maxx n.
  induction rest as [|[lon lat] tl IH]; intros lon_prev minx maxx n; [auto|].
  cbn [unwrap_tail].
  destruct (check_crossing_validate lon lon_prev dlon_threshold_default) as [-> | ->];
    [left; reflexivity|].
  destruct (check_crossing lon lon_prev false dlon_threshold_default) as [c|e];
    [|right; reflexivity].
  simpl.
  match goal with
  | |- context [unwrap_tail true ?a ?b ?c ?d tl] =>
      destruct (IH a b c d) as [-> | ->]; [left; reflexivity | right; reflexivity]
  end.
Qed.

Lemma normalize_ring_validate (i : nat) (ring : Ring) (st : split_state) :
  normalize_ring true i ring st = Raise ValueError_longitudes
  \/ normalize_ring true i ring st = normalize_ring false i ring st.
Proof.
  destruct ring as [|first rest]; [auto|].
  unfold normalize_ring, unwrap_ring.
  destruct (unwrap_tail_validate (fst first) (fst first) (fst first) 0 rest) as [-> | ->];
    [left; reflexivity | right; reflexivity].
Qed.

Lemma normalize_rings_validate (i : nat) (rings : list Ring) (st : split_state) :
  normalize_rings true i rings st = Raise ValueError_longitudes
  \/ normalize_rings true i rings st = normalize_rings false i rings st.
Proof.
  revert i st. induction rings as [|ring tl IH]; intros i st; [auto|].
  cbn [normalize_rings].
  destruct (normalize_ring_validate i ring st) as [-> | ->]; [left; reflexivity|].
  destruct (normalize_ring false i ring st) as [[h st1]|e]; [|right; reflexivity].
  simpl. destruct (IH (S i) st1) as [-> | ->]; [left; reflexivity | right; reflexivity].
Qed.

(** X12. Validation only ever rejects: under [validate] the polygon
    splitter either raises the validation error or does exactly what it does
    without [validate], returning the same fragments or raising the same
    error. *)
Theorem validate_only_rejects (ops_split : Polygon -> Q -> option GeometryCollection)
    (p : Polygon) :
  split_polygon ops_split p true = Raise ValueError_longitudes
  \/ split_polygon ops_split p true = split_polygon ops_split p false.
Proof.
  unfold split_polygon.
  destruct (normalize_rings_validate 0 p initial_state) as [-> | ->];
    [left; reflexivity | right; reflexivity].
Qed.

(** ** [split_multipolygon], lines 132-140 *)

Section MultiPolygon.

Variable ops_split : Polygon -> Q -> option GeometryCollection.

Lemma split_multipolygon_cons_Ok (p : Polygon) (tl r : GeometryCollection) :
  split_polygon ops_split p false = Ok r ->
  split_multipolygon ops_split (p :: tl)
  = rest ← split_multipolygon ops_split tl; Ok (r ++ rest).
Proof. intros H. cbn [split_multipolygon]. rewrite H. reflexivity. Qed.

Lemma split_multipolygon_cons_Raise (p : Polygon) (tl : GeometryCollection) (e : PyError) :
  split_polygon ops_split p false = Raise e ->
  split_multipolygon ops_split (p :: tl) = Raise e.
Proof. intros H. cbn [split_multipolygon]. rewrite H. reflexivity. Qed.

Lemma split_polygon_nonempty (p : Polygon) (validate : bool) (r : GeometryCollection) :
  (forall q m pieces, ops_split q m = Some pieces -> pieces <> []) ->
  split_polygon ops_split p validate = Ok r ->
  r <> [].
Proof.
  intros Hne H. unfold split_polygon in H. bind_inv H. destruct r0 as [coords st].
  destruct (Nat.ltb 1 (size (split_meridians st))); [discriminate|].
  destruct (if Nat.eqb _ 1 then _ else _) as [m|].
  - destruct coords as [|sh hs]; [discriminate|].
    destruct (ops_split (sh :: hs) (inject_Z m)) as [pieces|] eqn:Eo; [|discriminate].
    injection H as <-. apply Hne in Eo. destruct pieces; [congruence | discriminate].
  - destruct p; [discriminate|]. injection H as <-. discriminate.
Qed.

End MultiPolygon.

(** X14. The multipolygon splitter works member by member, in order:
    splitting a concatenation gives the concatenation of the two results, and
    fails as soon as one of the two parts fails. *)
Theorem split_multipolygon_concat (ops_split : Polygon -> Q -> option GeometryCollection)
    (a b : GeometryCollection) :
  split_multipolygon ops_split (a ++ b)
  = ra ← split_multipolygon ops_split a;
    rb ← split_multipolygon ops_split b;
    Ok (ra ++ rb).
Proof.
  induction a as [|p a IH].
  - cbn [app split_multipolygon]. simpl.
    destruct (split_multipolygon ops_split b); reflexivity.
  - change ((p :: a) ++ b) with (p :: (a ++ b)).
    destruct (split_polygon ops_split p false) as [r|e] eqn:Ep.
    + rewrite !(split_multipolygon_cons_Ok _ _ _ _ Ep), IH.
      destruct (split_multipolygon ops_split a) as [ra|ea]; [|reflexivity]. simpl.
      destruct (split_multipolygon ops_split b) as [rb|eb]; [|reflexivity]. simpl.
      rewrite app_assoc. reflexivity.
    + rewrite !(split_multipolygon_cons_Raise _ _ _ _ Ep). reflexivity.
Qed.

(** X15. The first member that fails aborts the whole call: when the
    members before it split and it raises, the multipolygon splitter raises
    the same error and returns none of the fragments already computed. *)
Theorem split_multipolygon_aborts (ops_split : Polygon -> Q -> option GeometryCollection)
    (pre : GeometryCollection) (p : Polygon) (post : GeometryCollection) (e : PyError) :
  Forall (fun q => exists r, split_polygon ops_split q false = Ok r) pre ->
  split_polygon ops_split p false = Raise e ->
  split_multipolygon ops_split (pre ++ p :: post) = Raise e.
Proof.
  intros Hpre Hp. induction Hpre as [|q pre (r & Hq) _ IH].
  - apply split_multipolygon_cons_Raise, Hp.
  - change ((q :: pre) ++ p :: post) with (q :: (pre ++ p :: post)).
    rewrite (split_multipolygon_cons_Ok _ _ _ _ Hq), IH. reflexivity.
Qed.

Lemma split_multipolygon_aborts_witness :
  split_multipolygon convex_split ([[example_ring]] ++ [zigzag_ring] :: [[example_ring]])
  = Raise NotImplementedError_split.
Proof.
  apply split_multipolygon_aborts.
  - constructor; [|constructor]. eexists. vm_compute. reflexivity.
  - vm_compute. reflexivity.
Defined.

Lemma convex_split_nonempty (q : Polygon) (m : Q) (pieces : GeometryCollection) :
  convex_split q m = Some pieces -> pieces <> [].
Proof.
  unfold convex_split. destruct q as [|shell [|h hs]]; try discriminate.
  destruct (_ || _); intros [= <-]; discriminate.
Qed.

(** X16. Polygons are subdivided, never merged or dropped: when the split
    primitive never returns an empty collection, a multipolygon that splits
    yields at least as many fragments as it has members. *)
Theorem split_multipolygon_count (ops_split : Polygon -> Q -> option GeometryCollection)
    (mp out : GeometryCollection) :
  (forall q m pieces, ops_split q m = Some pieces -> pieces <> []) ->
  split_multipolygon ops_split mp = Ok out ->
  (length mp <= length out)%nat.
Proof.
  intros Hne. revert out. induction mp as [|p tl IH]; intros out H.
  - simpl. lia.
  - cbn [split_multipolygon] in H. bind_inv H. bind_inv H. injection H as <-.
    pose proof (split_polygon_nonempty ops_split p false r Hne Hr) as Hr'.
    specialize (IH _ Hr0). rewrite length_app. simpl.
    destruct r; [congruence | simpl; lia].
Qed.

Lemma split_multipolygon_count_witness :
  (length [[example_ring]; [rect 0 1 0 1]] <= 3)%nat.
Proof.
  refine (split_multipolygon_count convex_split [[example_ring]; [rect 0 1 0 1]]
            (translate_polygons
               [[[(180, 0 # 2); (180, 2 # 2); (179, 1); (179, 0); (180, 0 # 2)]];
                [[(180, 0 # 2); (181, 0); (181, 1); (180, 2 # 2); (180, 0 # 2)]]]
             ++ [[rect 0 1 0 1]]) convex_split_nonempty _).
  vm_compute. reflexivity.
Defined.

(** ** [wrap_polygons], lines 143-169 *)

Lemma Qltb_irrefl (x y : Q) : x == y -> Qltb x y = false.
Proof. intros H. apply Qltb_ge. lra. Qed.

Lemma wrap_polygons_cases (gc : GeometryCollection) (verbose : bool) :
  (fst (wrap_polygons gc verbose) = gc
   /\ difference_ltb (width (transformed gc)) (width gc) = false)
  \/ (fst (wrap_polygons gc verbose) = transformed gc
      /\ difference_ltb (width (transformed gc)) (width gc) = true).
Proof.
  unfold wrap_polygons. fold (width gc). fold (width (transformed gc)).
  destruct (difference_ltb _ _); auto.
Qed.

Lemma wrap_polygon_eastern (p : Polygon) : eastern p -> wrap_polygon p = p.
Proof.
  unfold eastern, wrap_polygon. intros H.
  destruct (bounds p) as [[mn mx]|]; [|reflexivity].
  specialize (H _ eq_refl). simpl in H. apply Qltb_ge in H. rewrite H. reflexivity.
Qed.

Lemma transformed_eastern (gc : GeometryCollection) :
  Forall eastern gc -> transformed gc = gc.
Proof.
  induction 1 as [|p gc Hp _ IH]; [reflexivity|].
  unfold transformed in *. cbn [map]. rewrite IH, (wrap_polygon_eastern p Hp). reflexivity.
Qed.

Lemma wrap_polygons_eastern (gc : GeometryCollection) (verbose : bool) :
  Forall eastern gc -> wrap_polygons gc verbose = (gc, []).
Proof.
  intros H. unfold wrap_polygons. rewrite (transformed_eastern gc H).
  destruct (difference (collection_bounds gc)) as [w|]; [|reflexivity].
  simpl. rewrite Qltb_irrefl; reflexivity.
Qed.

Lemma wrap_polygon_becomes_eastern (p : Polygon) :
  (forall b, bounds p = Some b -> -360 <= fst b) -> eastern (wrap_polygon p).
Proof.
  unfold eastern, wrap_polygon. intros H b.
  destruct (bounds p) as [[mn mx]|] eqn:Eb; [|congruence].
  specialize (H _ eq_refl). simpl in H.
  destruct (Qltb mn 0) eqn:El.
  - rewrite bounds_translate, Eb. intros [= <-]. simpl. lra.
  - rewrite Eb. intros [= <-]. simpl. qcases. exact El.
Qed.

(** X19. On fragments whose least longitude is at least -360, and so on
    everything the range re-wrap produces from fragments within one turn,
    the optimizer is idempotent: applied to its own result it returns that
    result. *)
Theorem wrap_polygons_idempotent (gc : GeometryCollection) (verbose : bool) :
  Forall (fun p => forall b, bounds p = Some b -> -360 <= fst b) gc ->
  fst (wrap_polygons (fst (wrap_polygons gc verbose)) verbose)
  = fst (wrap_polygons gc verbose).
Proof.
  intros H. destruct (wrap_polygons_cases gc verbose) as [[-> Hlt]|[-> Hlt]].
  - unfold wrap_polygons. fold (width gc). fold (width (transformed gc)).
    rewrite Hlt. reflexivity.
  - rewrite wrap_polygons_eastern; [reflexivity|].
    unfold transformed. clear Hlt.
    induction H as [|p tl Hp _ IH]; cbn [map]; constructor.
    + apply wrap_polygon_becomes_eastern, Hp.
    + exact IH.
Qed.

Lemma wrap_polygons_idempotent_witness :
  fst (wrap_polygons
         (fst (wrap_polygons [[rect 179 180 0 1]; [rect (-180) (-179) 0 1]] true)) true)
  = fst (wrap_polygons [[rect 179 180 0 1]; [rect (-180) (-179) 0 1]] true).
Proof.
  apply wrap_polygons_idempotent.
  repeat constructor; intros b Hb; vm_compute in Hb; injection Hb as <-; simpl; lra.
Defined.

(** ** [splitter], lines 171-180 *)

(** X20. The dispatcher treats a polygon exactly as the multipolygon made
    of that one polygon: same fragments, same output, same error. *)
Theorem splitter_polygon_as_multipolygon
    (ops_split : Polygon -> Q -> option GeometryCollection)
    (p : Polygon) (verbose : bool) :
  splitter ops_split (GPolygon p) verbose
  = splitter ops_split (GMultiPolygon [p]) verbose.
Proof.
  unfold splitter, dispatch. cbn [split_multipolygon].
  destruct (split_polygon ops_split p false) as [r|e]; [|reflexivity].
  simpl. rewrite app_nil_r. reflexivity.
Qed.

(** ** Area through [split_polygon], lines 110-129 *)

(** X21. When the ring loop selects a single meridian and the split
    primitive cuts the unwrapped polygon into pieces of the same total area,
    [split_polygon] returns as many fragments as the primitive gave pieces,
    and their areas add up to the area of the unwrapped polygon. *)
Theorem split_polygon_area (ops_split : Polygon -> Q -> option GeometryCollection)
    (p : Polygon) (validate : bool) (coords : Polygon) (st : split_state)
    (m : Z) (pieces : GeometryCollection) :
  normalize_rings validate 0 p initial_state = Ok (coords, st) ->
  split_meridians st = {[ m ]} ->
  ops_split coords (inject_Z m) = Some pieces ->
  total_area pieces == area coords ->
  exists out,
    split_polygon ops_split p validate = Ok out
    /\ length out = length pieces
    /\ total_area out == area coords.
Proof.
  intros Hn Hm Ho Harea. exists (translate_polygons pieces).
  split; [|split].
  - unfold split_polygon. rewrite Hn. simpl. rewrite Hm, size_singleton. simpl.
    rewrite elements_singleton. simpl.
    destruct coords as [|sh hs].
    + destruct p as [|r tl]; [|apply normalize_rings_length in Hn; discriminate].
      simpl in Hn. injection Hn as <-. simpl in Hm.
      exfalso. apply (not_elem_of_empty (C:=gset Z) m). rewrite Hm.
      apply elem_of_singleton. reflexivity.
    + rewrite Ho. reflexivity.
  - apply length_map.
  - rewrite total_area_translate_polygons. exact Harea.
Qed.

Lemma split_polygon_area_witness :
  exists out,
    split_polygon convex_split [example_ring] false = Ok out
    /\ length out = 2%nat
    /\ total_area out == area [example_unwrapped].
Proof.
  refine (split_polygon_area convex_split [example_ring] false [example_unwrapped]
            {| shell_x := Some (179, 181); split_meridians := {[ 180%Z ]} |} 180
            [[[(180, 0 # 2); (180, 2 # 2); (179, 1); (179, 0); (180, 0 # 2)]];
             [[(180, 0 # 2); (181, 0); (181, 1); (180, 2 # 2); (180, 0 # 2)]]]
            _ _ _ _).
  - vm_compute. reflexivity.
  - reflexivity.
  - vm_compute. reflexivity.
  - vm_compute. reflexivity.
Defined.

(** * Properties over binary64 *)

(** ** The order of binary64 numbers *)

Lemma SFltb_irrefl (x : spec_float) : SFltb x x = false.
Proof.
  unfold SFltb. destruct x as [s|s| |s m e]; simpl; try reflexivity.
  - destruct s; reflexivity.
  - destruct s; rewrite Z.compare_refl, Pos.compare_cont_refl; reflexivity.
Qed.

Lemma cont_Eq_Lt (p q : positive) : Pos.compare_cont Eq p q = Lt <-> (p < q)%positive.
Proof. reflexivity. Qed.

Lemma cont_Eq_Gt (p q : positive) : Pos.compare_cont Eq p q = Gt <-> (q < p)%positive.
Proof. fold (Pos.compare p q). rewrite Pos.compare_gt_iff. reflexivity. Qed.

Lemma SFltb_finite (s1 s2 : bool) (m1 m2 : positive) (e1 e2 : Z) :
  SFltb (S754_finite s1 m1 e1) (S754_finite s2 m2 e2) = true <->
  match s1, s2 with
  | true, false => True
  | false, true => False
  | false, false => (e1 < e2)%Z \/ (e1 = e2 /\ (m1 < m2)%positive)
  | true, true => (e2 < e1)%Z \/ (e1 = e2 /\ (m2 < m1)%positive)
  end.
Proof.
  unfold SFltb. simpl. destruct s1, s2; try (split; [auto | reflexivity]);
    try (split; [discriminate | contradiction]).
  - destruct (Z.compare_spec e1 e2) as [He|He|He].
    + destruct (Pos.compare_cont Eq m1 m2) eqn:Ec; simpl; split; intros H;
        try discriminate; try reflexivity.
      * destruct H as [H|[_ H]]; [lia|]. apply cont_Eq_Gt in H. rewrite Ec in H. discriminate.
      * destruct H as [H|[_ H]]; [lia|]. apply cont_Eq_Gt in H. rewrite Ec in H. discriminate.
      * right. split; [exact He|]. apply cont_Eq_Gt. exact Ec.
    + split; [discriminate|]. intros [H|[H _]]; lia.
    + split; [left; lia | reflexivity].
  - destruct (Z.compare_spec e1 e2) as [He|He|He].
    + destruct (Pos.compare_cont Eq m1 m2) eqn:Ec; split; intros H;
        try discriminate; try reflexivity.
      * destruct H as [H|[_ H]]; [lia|]. apply cont_Eq_Lt in H. rewrite Ec in H. discriminate.
      * right. split; [exact He|]. apply cont_Eq_Lt. exact Ec.
      * destruct H as [H|[_ H]]; [lia|]. apply cont_Eq_Lt in H. rewrite Ec in H. discriminate.
    + split; [left; lia | reflexivity].
    + split; [discriminate|]. intros [H|[H _]]; lia.
Qed.

Lemma SFltb_trans (x y z : spec_float) :
  SFltb x y = true -> SFltb y z = true -> SFltb x z = true.
Proof.
  destruct x as [sx|sx| |sx mx ex], y as [sy|sy| |sy my ey], z as [sz|sz| |sz mz ez];
    try (unfold SFltb; simpl; repeat match goal with b : bool |- _ => destruct b end;
         simpl; congruence).
  rewrite !SFltb_finite. destruct sx, sy, sz; try tauto; intros H1 H2;
    destruct H1 as [H1|[H1 H1']], H2 as [H2|[H2 H2']]; try (left; lia);
    right; (split; [lia|]); eapply Pos.lt_trans; eassumption.
Qed.

Lemma ltb_irrefl (x : float) : (x <? x)%float = false.
Proof. rewrite FloatAxioms.ltb_spec. apply SFltb_irrefl. Qed.

Lemma ltb_trans (x y z : float) :
  (x <? y)%float = true -> (y <? z)%float = true -> (x <? z)%float = true.
Proof. rewrite !FloatAxioms.ltb_spec. apply SFltb_trans. Qed.

Lemma ltb_asym (x y : float) : (x <? y)%float = true -> (y <? x)%float = false.
Proof.
  intros H. destruct (y <? x)%float eqn:E; [|reflexivity].
  pose proof (ltb_trans _ _ _ H E) as Hxx. rewrite ltb_irrefl in Hxx. discriminate.
Qed.

Lemma ltb_not_below (x y m : float) :
  (x <? m)%float = false -> (y <? m)%float = true -> (x <? y)%float = false.
Proof.
  intros Hx Hy. destruct (x <? y)%float eqn:E; [|reflexivity].
  rewrite (ltb_trans _ _ _ E Hy) in Hx. discriminate.
Qed.

Lemma ltb_not_above (x y m : float) :
  (m <? x)%float = false -> (m <? y)%float = true -> (y <? x)%float = false.
Proof.
  intros Hx Hy. destruct (y <? x)%float eqn:E; [|reflexivity].
  rewrite (ltb_trans _ _ _ Hy E) in Hx. discriminate.
Qed.

(** ** [check_crossing] over binary64, lines 8-17 *)

(** C3 (as the code has it). [check_crossing] raises the validation error
    exactly when [validate] is set and one of the two longitudes exceeds 180
    in absolute value, and it raises nothing else; otherwise it returns
    whether the difference of the two longitudes, as binary64 subtraction
    rounds it, exceeds the threshold in absolute value.  With 200 and 0 it
    raises under [validate] and returns true without. *)
Theorem check_crossing_binary64 (lon1 lon2 : float) (validate : bool) (thr : float) :
  (B64.check_crossing lon1 lon2 validate thr = Raise ValueError_longitudes
   <-> validate = true
       /\ ((180 <? abs lon1)%float = true \/ (180 <? abs lon2)%float = true))
  /\ (forall e, B64.check_crossing lon1 lon2 validate thr = Raise e ->
                e = ValueError_longitudes)
  /\ (~ (validate = true
         /\ ((180 <? abs lon1)%float = true \/ (180 <? abs lon2)%float = true)) ->
      exists b, B64.check_crossing lon1 lon2 validate thr = Ok b
                /\ (b = true <-> (thr <? abs (lon2 - lon1))%float = true))
  /\ B64.check_crossing 200 0 true 180 = Raise ValueError_longitudes
  /\ B64.check_crossing 200 0 false 180 = Ok true.
Proof.
  split; [|split; [|split; [|split; vm_compute; reflexivity]]].
  - unfold B64.check_crossing. cbn [existsb]. rewrite orb_false_r.
    destruct validate, (180 <? abs lon1)%float, (180 <? abs lon2)%float; cbn [andb orb];
      intuition congruence.
  - unfold B64.check_crossing. destruct (validate && _); congruence.
  - intros Hn. unfold B64.check_crossing. cbn [existsb]. rewrite orb_false_r.
    destruct validate, (180 <? abs lon1)%float, (180 <? abs lon2)%float; cbn [andb orb];
      try (exfalso; apply Hn; auto; fail);
      eexists; split; reflexivity.
Qed.

(** The claim C3 as stated compares the exact difference with the
    threshold.  The code compares the rounded one: 90.00000000000001 and -90
    are more than 180 apart, their binary64 difference is 180.0, and no
    crossing is reported. *)
Lemma check_crossing_exact_counterexample :
  ~ (forall (lon1 lon2 : float) (q1 q2 : Q),
       B64.value lon1 = Some q1 -> B64.value lon2 = Some q2 ->
       (B64.check_crossing lon1 lon2 false 180 = Ok true <-> 180 < Qabs (q2 - q1))).
Proof.
  intros H.
  destruct (H 0x1.6800000000001p+6%float (-90)%float
              (6333186975989761 # 70368744177664) (-6333186975989760 # 70368744177664))
    as [_ Hback].
  - vm_compute. reflexivity.
  - vm_compute. reflexivity.
  - assert (B64.check_crossing 0x1.6800000000001p+6 (-90) false 180 = Ok true) as Hc.
    { apply Hback. vm_compute. reflexivity. }
    vm_compute in Hc. discriminate.
Qed.

(** ** Bounding boxes over binary64 *)

Lemma lon_range_least (r : B64.Ring) (minx maxx : float) (L : list float) :
  B64.least L minx ->
  B64.least (L ++ map fst r) (fst (B64.lon_range minx maxx r)).
Proof.
  revert minx maxx L. induction r as [|c tl IH]; intros minx maxx L [Hin Hlow].
  - cbn [map B64.lon_range fst]. rewrite app_nil_r. split; assumption.
  - cbn [map B64.lon_range].
    replace (L ++ fst c :: map fst tl) with ((L ++ [fst c]) ++ map fst tl)
      by (rewrite <- app_assoc; reflexivity).
    apply IH. unfold B64.lower. destruct (fst c <? minx)%float eqn:E; split.
    + apply in_or_app. right. left. reflexivity.
    + intros x Hx. apply in_app_or in Hx as [Hx|[<-|[]]].
      * eapply ltb_not_below; [apply Hlow, Hx | exact E].
      * apply ltb_irrefl.
    + apply in_or_app. left. exact Hin.
    + intros x Hx. apply in_app_or in Hx as [Hx|[<-|[]]]; [apply Hlow, Hx | exact E].
Qed.

Lemma lon_range_greatest (r : B64.Ring) (minx maxx : float) (L : list float) :
  B64.greatest L maxx ->
  B64.greatest (L ++ map fst r) (snd (B64.lon_range minx maxx r)).
Proof.
  revert minx maxx L. induction r as [|c tl IH]; intros minx maxx L [Hin Hhigh].
  - cbn [map B64.lon_range snd]. rewrite app_nil_r. split; assumption.
  - cbn [map B64.lon_range].
    replace (L ++ fst c :: map fst tl) with ((L ++ [fst c]) ++ map fst tl)
      by (rewrite <- app_assoc; reflexivity).
    apply IH. unfold B64.upper. destruct (maxx <? fst c)%float eqn:E; split.
    + apply in_or_app. right. left. reflexivity.
    + intros x Hx. apply in_app_or in Hx as [Hx|[<-|[]]].
      * eapply ltb_not_above; [apply Hhigh, Hx | exact E].
      * apply ltb_irrefl.
    + apply in_or_app. left. exact Hin.
    + intros x Hx. apply in_app_or in Hx as [Hx|[<-|[]]]; [apply Hhigh, Hx | exact E].
Qed.

Lemma bounds_frame (p : B64.Polygon) (b : float * float) :
  B64.bounds p = Some b -> B64.frame p b /\ B64.has_shell p = true.
Proof.
  destruct p as [|[|c tl] holes]; try discriminate.
  cbn [B64.bounds B64.ring_bounds]. intros [= <-]. split; [split|reflexivity].
  - apply (lon_range_least tl (fst c) (fst c) [fst c]).
    split; [left; reflexivity|]. intros x [<-|[]]. apply ltb_irrefl.
  - apply (lon_range_greatest tl (fst c) (fst c) [fst c]).
    split; [left; reflexivity|]. intros x [<-|[]]. apply ltb_irrefl.
Qed.

Lemma bounds_no_shell (p : B64.Polygon) :
  B64.bounds p = None <-> B64.has_shell p = false.
Proof.
  destruct p as [|[|c tl] holes]; cbn; split; intros H; try reflexivity; discriminate.
Qed.

Lemma join_bounds_accumulated (acc : option (float * float)) (bs : list (float * float))
    (b : float * float) :
  B64.accumulated acc bs ->
  B64.accumulated (B64.join_bounds acc (Some b)) (bs ++ [b]).
Proof.
  destruct acc as [[a1 a2]|], b as [b1 b2]; cbn [B64.join_bounds B64.accumulated fst snd].
  - intros [[Hin1 Hlow] [Hin2 Hhigh]]. rewrite !map_app. cbn [map fst snd]. split.
    + unfold B64.lower. destruct (b1 <? a1)%float eqn:E; split.
      * apply in_or_app. right. left. reflexivity.
      * intros x Hx. apply in_app_or in Hx as [Hx|[<-|[]]].
        -- eapply ltb_not_below; [apply Hlow, Hx | exact E].
        -- apply ltb_irrefl.
      * apply in_or_app. left. exact Hin1.
      * intros x Hx. apply in_app_or in Hx as [Hx|[<-|[]]]; [apply Hlow, Hx | exact E].
    + unfold B64.upper. destruct (a2 <? b2)%float eqn:E; split.
      * apply in_or_app. right. left. reflexivity.
      * intros x Hx. apply in_app_or in Hx as [Hx|[<-|[]]].
        -- eapply ltb_not_above; [apply Hhigh, Hx | exact E].
        -- apply ltb_irrefl.
      * apply in_or_app. left. exact Hin2.
      * intros x Hx. apply in_app_or in Hx as [Hx|[<-|[]]]; [apply Hhigh, Hx | exact E].
  - intros ->. cbn [app map fst snd]. split; (split; [left; reflexivity|]);
      intros x [<-|[]]; apply ltb_irrefl.
Qed.

Lemma collection_bounds_accumulated (gc : B64.GeometryCollection)
    (acc : option (float * float)) (bs0 : list (float * float)) :
  B64.accumulated acc bs0 ->
  exists bs,
    Forall2 B64.frame (List.filter B64.has_shell gc) bs
    /\ B64.accumulated (fold_left (fun a p => B64.join_bounds a (B64.bounds p)) gc acc)
         (bs0 ++ bs).
Proof.
  revert acc bs0. induction gc as [|p tl IH]; intros acc bs0 Hacc.
  - exists []. split; [constructor|]. rewrite app_nil_r. exact Hacc.
  - cbn [fold_left List.filter]. destruct (B64.bounds p) as [b|] eqn:Eb.
    + destruct (bounds_frame p b Eb) as [Hf ->].
      destruct (IH _ _ (join_bounds_accumulated acc bs0 b Hacc)) as (bs & Hall & Hfold).
      exists (b :: bs). split; [constructor; assumption|].
      rewrite <- app_assoc in Hfold. exact Hfold.
    + pose proof (proj1 (bounds_no_shell p) Eb) as ->.
      assert (B64.join_bounds acc None = acc) as -> by (destruct acc as [[? ?]|]; reflexivity).
      apply IH, Hacc.
Qed.

Lemma collection_bounds_frame (gc : B64.GeometryCollection) :
  match B64.collection_bounds gc with
  | Some b => B64.collection_frame gc b
  | None => List.filter B64.has_shell gc = []
  end.
Proof.
  destruct (collection_bounds_accumulated gc None [] eq_refl) as (bs & Hall & Hacc).
  unfold B64.collection_bounds. cbn [app] in Hacc.
  destruct (fold_left _ gc None) as [b|]; cbn [B64.accumulated] in Hacc.
  - exists bs. split; [exact Hall | exact Hacc].
  - subst bs. inversion Hall. reflexivity.
Qed.

Lemma has_shell_wrap_polygon (p : B64.Polygon) :
  B64.has_shell (B64.wrap_polygon p) = B64.has_shell p.
Proof.
  unfold B64.wrap_polygon. destruct (B64.bounds p) as [[mn mx]|]; [|reflexivity].
  destruct (mn <? 0)%float; [|reflexivity].
  destruct p as [|[|c tl] holes]; reflexivity.
Qed.

Lemma filter_has_shell_transformed (gc : B64.GeometryCollection) :
  List.filter B64.has_shell gc = [] ->
  List.filter B64.has_shell (B64.transformed gc) = [].
Proof.
  induction gc as [|p tl IH]; [reflexivity|].
  cbn [List.filter B64.transformed map]. rewrite has_shell_wrap_polygon.
  destruct (B64.has_shell p); [discriminate | exact IH].
Qed.

Lemma filter_has_shell_transformed_inv (gc : B64.GeometryCollection) :
  List.filter B64.has_shell (B64.transformed gc) = [] ->
  List.filter B64.has_shell gc = [].
Proof.
  induction gc as [|p tl IH]; [reflexivity|].
  cbn [List.filter B64.transformed map]. rewrite has_shell_wrap_polygon.
  destruct (B64.has_shell p); [discriminate | exact IH].
Qed.

Lemma b64_transformed_lookup (gc : B64.GeometryCollection) (i : nat) (p : B64.Polygon) :
  gc !! i = Some p -> B64.transformed gc !! i = Some (B64.wrap_polygon p).
Proof.
  revert i. induction gc as [|q gc IH]; intros [|i] H; simpl in *; try discriminate.
  - congruence.
  - apply IH, H.
Qed.

(** ** [wrap_polygons] over binary64, lines 143-169 *)

(** C5. The footprint optimizer builds one candidate with as many
    fragments as the input: a fragment whose own least shell longitude is
    below zero has every longitude increased by 360 and its latitudes kept,
    every other fragment is left as it is.  With the bounding box of the
    input from [minLon] to [maxLon] over the whole collection and that of the
    candidate likewise, it returns the candidate when the width of the
    candidate, [maxLon - minLon], is strictly less than the width of the
    input, and the input unchanged otherwise (also when the collection has no
    vertex and so no bounding box); a note is printed only for a returned
    candidate under [verbose]. *)
Theorem wrap_polygons_binary64 (gc : B64.GeometryCollection) (verbose : bool) :
  exists cand,
    length cand = length gc
    /\ (forall i p, gc !! i = Some p ->
          (B64.has_shell p = false -> cand !! i = Some p)
          /\ (B64.has_shell p = true ->
              exists m, B64.least (B64.shell_lons p) m
                        /\ cand !! i = Some (if (m <? 0)%float then B64.east p else p)))
    /\ (List.filter B64.has_shell gc = [] -> B64.wrap_polygons gc verbose = (gc, []))
    /\ (List.filter B64.has_shell gc <> [] ->
        exists b b',
          B64.collection_frame gc b
          /\ B64.collection_frame cand b'
          /\ B64.wrap_polygons gc verbose
             = if (snd b' - fst b' <? snd b - fst b)%float
               then (cand, if verbose
                           then ["Wrapped polygons to reduce footprint"%string] else [])
               else (gc, [])).
Proof.
  exists (B64.transformed gc). split; [apply length_map|]. split; [|split].
  - intros i p Hi. rewrite (b64_transformed_lookup _ _ _ Hi). unfold B64.wrap_polygon.
    destruct (B64.bounds p) as [[mn mx]|] eqn:Eb.
    + destruct (bounds_frame p _ Eb) as [[Hl _] Hs]. split; [congruence|].
      intros _. exists mn. split; [exact Hl | reflexivity].
    + apply bounds_no_shell in Eb. split; [reflexivity | congruence].
  - intros Hnone. unfold B64.wrap_polygons.
    pose proof (collection_bounds_frame gc) as Hg.
    destruct (B64.collection_bounds gc) as [b|].
    + destruct Hg as (bs & Hall & [Hin _] & _). rewrite Hnone in Hall.
      inversion Hall; subst. destruct Hin.
    + cbn. destruct (B64.difference _); reflexivity.
  - intros Hsome. unfold B64.wrap_polygons.
    pose proof (collection_bounds_frame gc) as Hg.
    pose proof (collection_bounds_frame (B64.transformed gc)) as Ht.
    destruct (B64.collection_bounds gc) as [[a1 a2]|]; [|contradiction].
    destruct (B64.collection_bounds (B64.transformed gc)) as [[t1 t2]|].
    + exists (a1, a2), (t1, t2). split; [exact Hg|]. split; [exact Ht|]. reflexivity.
    + exfalso. apply Hsome, filter_has_shell_transformed_inv, Ht.
Qed.

(** ** Fragments without crossing, over binary64 *)

Lemma b64_unwrap_tail_no_crossing (lon_prev minx maxx : float) (n : nat)
    (rest : B64.Ring) :
  B64.steps_within lon_prev rest = true ->
  B64.unwrap_tail false lon_prev minx maxx n rest
  = Ok (rest, B64.lon_range minx maxx rest, n).
Proof.
  revert lon_prev minx maxx.
  induction rest as [|[lon lat] tl IH]; intros lon_prev minx maxx Hs; [reflexivity|].
  cbn [B64.steps_within fst] in Hs. apply andb_true_iff in Hs as [Hstep Hs].
  apply negb_true_iff in Hstep.
  cbn [B64.unwrap_tail]. unfold B64.check_crossing. cbn [andb].
  rewrite Hstep. simpl. rewrite (IH _ _ _ Hs). reflexivity.
Qed.

Lemma b64_normalize_rings_no_crossing (i : nat) (rings : list B64.Ring)
    (st : B64.split_state) :
  forallb B64.ring_no_crossing rings = true ->
  (i <> 0%nat -> exists sb, B64.shell_x st = Some sb) ->
  (i = 0%nat -> forall r tl, rings = r :: tl -> r <> []) ->
  exists coords st',
    B64.normalize_rings false i rings st = Ok (coords, st')
    /\ B64.split_meridians st' = B64.split_meridians st.
Proof.
  revert i st. induction rings as [|ring tl IH]; intros i st Hnc Hsh Hne.
  - simpl. eauto.
  - cbn [forallb] in Hnc. apply andb_true_iff in Hnc as [Hr Hnc].
    assert (exists h st1, B64.normalize_ring false i ring st = Ok (h, st1)
                          /\ B64.split_meridians st1 = B64.split_meridians st
                          /\ exists sb, B64.shell_x st1 = Some sb) as (h & st1 & Hh & Hm & Hs1).
    { destruct ring as [|first rest].
      - destruct (Nat.eq_dec i 0%nat) as [->|Hi].
        + exfalso. eapply (Hne eq_refl); reflexivity.
        + exists [], st. split; [reflexivity|]. split; [reflexivity | exact (Hsh Hi)].
      - cbn [B64.ring_no_crossing] in Hr.
        unfold B64.normalize_ring, B64.unwrap_ring.
        rewrite (b64_unwrap_tail_no_crossing _ _ _ _ _ Hr). simpl.
        unfold B64.align.
        destruct (B64.lon_range (fst first) (fst first) rest) as [mn mx].
        destruct (Nat.eqb i 0) eqn:Ei.
        + simpl. eauto 6.
        + apply Nat.eqb_neq in Ei. destruct (Hsh Ei) as [[smin smax] ->].
          destruct (mn <? smin)%float; [simpl; eauto 6|].
          destruct (smax <? mx)%float; simpl; eauto 6. }
    destruct (IH (S i) st1) as (coords & st' & Ht & Hm').
    + exact Hnc.
    + intros _. exact Hs1.
    + intros [=].
    + exists (h :: coords), st'. simpl. rewrite Hh. simpl. rewrite Ht. simpl.
      split; [reflexivity | congruence].
Qed.

Section FixedPointB64.

Variable ops_split : B64.Polygon -> float -> option B64.GeometryCollection.

Lemma b64_split_polygon_plain (p : B64.Polygon) :
  B64.no_crossing p = true ->
  B64.has_shell p = true ->
  B64.split_polygon ops_split p false = Ok [B64.translate_polygon p].
Proof.
  intros Hnc Hs.
  destruct (b64_normalize_rings_no_crossing 0 p B64.initial_state Hnc)
    as (coords & st & Hn & Hm).
  - intros Hi. exfalso. apply Hi. reflexivity.
  - intros _ r tl -> ->. discriminate.
  - unfold B64.split_polygon. rewrite Hn. simpl. rewrite Hm. cbn.
    destruct p as [|shell holes]; [discriminate | reflexivity].
Qed.

Lemma b64_settled_split (s : B64.Polygon) :
  B64.settled s -> B64.split_polygon ops_split s false = Ok [s].
Proof.
  intros (Hnc & mn & mx & Hb & H1 & H2).
  rewrite (b64_split_polygon_plain s Hnc) by (eapply bounds_frame, Hb).
  unfold B64.translate_polygon. rewrite Hb, H1, H2. reflexivity.
Qed.

Lemma b64_settled_split_wrapped (s : B64.Polygon) :
  B64.settled s -> B64.recoverable s ->
  B64.split_polygon ops_split (B64.wrap_polygon s) false = Ok [s].
Proof.
  intros Hs [Hkeep|[Hnc Hback]].
  - rewrite Hkeep. apply b64_settled_split, Hs.
  - rewrite (b64_split_polygon_plain _ Hnc), Hback; [reflexivity|].
    rewrite has_shell_wrap_polygon. destruct Hs as (_ & mn & mx & Hb & _).
    eapply bounds_frame, Hb.
Qed.

Lemma b64_split_multipolygon_settled (S : B64.GeometryCollection) :
  Forall B64.settled S -> Forall B64.recoverable S ->
  B64.split_multipolygon ops_split S = Ok S
  /\ B64.split_multipolygon ops_split (B64.transformed S) = Ok S.
Proof.
  intros Hs. induction Hs as [|s S Hs HS IH]; intros Hr; [auto|].
  inversion Hr as [|? ? Hr1 Hr2]; subst. destruct (IH Hr2) as [IH1 IH2].
  cbn [B64.transformed map B64.split_multipolygon].
  rewrite (b64_settled_split s Hs), (b64_settled_split_wrapped s Hs Hr1), IH1.
  fold (B64.transformed S). rewrite IH2. simpl. auto.
Qed.

End FixedPointB64.

(** ** Idempotence of the pipeline, over binary64 *)

(** C7 (as the code has it). When the split stage leaves only settled
    fragments (a shell, no crossing detected, bounds within [-180, 180]) on
    which the shift of the optimizer can be undone (the optimizer leaves the
    fragment, or the shifted fragment still shows no crossing and the range
    re-wrap returns it to the same coordinates), the result of the pipeline is
    a fixed point of the pipeline: running it again on the result returns the
    same collection, and prints the same. *)
Theorem pipeline_fixed_point_binary64
    (ops_split : B64.Polygon -> float -> option B64.GeometryCollection)
    (g : B64.Geometry) (verbose : bool) (fragments : B64.GeometryCollection) :
  B64.dispatch ops_split g = Ok (Some fragments) ->
  Forall B64.settled fragments ->
  Forall B64.recoverable fragments ->
  exists out,
    B64.splitter ops_split g verbose = Ok out
    /\ B64.splitter ops_split (B64.GMultiPolygon (fst out)) verbose = Ok out.
Proof.
  intros Hd Hs Hr. exists (B64.wrap_polygons fragments verbose). split.
  - unfold B64.splitter. rewrite Hd. reflexivity.
  - destruct (b64_split_multipolygon_settled ops_split fragments Hs Hr) as [H1 H2].
    assert (B64.split_multipolygon ops_split (fst (B64.wrap_polygons fragments verbose))
            = Ok fragments) as Hm.
    { unfold B64.wrap_polygons. destruct (B64.difference_ltb _ _); simpl; assumption. }
    unfold B64.splitter, B64.dispatch. rewrite Hm. reflexivity.
Qed.

Lemma pipeline_fixed_point_binary64_witness :
  exists out,
    B64.splitter B64.convex_split (B64.GPolygon [B64.example_ring]) true = Ok out
    /\ B64.splitter B64.convex_split (B64.GMultiPolygon (fst out)) true = Ok out.
Proof.
  eapply (pipeline_fixed_point_binary64 B64.convex_split (B64.GPolygon [B64.example_ring]) true).
  - vm_compute. reflexivity.
  - repeat constructor.
    + exists 179%float, 180%float. repeat split; vm_compute; reflexivity.
    + exists (-180)%float, (-179)%float. repeat split; vm_compute; reflexivity.
  - constructor; [|constructor; [|constructor]].
    + left. vm_compute. reflexivity.
    + right. split; vm_compute; reflexivity.
Defined.

(** The claim C7 as stated fails on an ordinary polygon.  The polygon from
    -137.8 to -127.8 is alone in its collection, yet the optimizer moves it by
    360 degrees: the rounded width of the moved polygon is 10, that of the
    input 10.000000000000014.  The second run moves the result back, to
    -127.80000000000001 at its eastern edge, finds no width to gain and
    returns that: another collection than the first run returned. *)
Lemma pipeline_fixed_point_counterexample :
  ~ (forall (ops_split : B64.Polygon -> float -> option B64.GeometryCollection)
            (g : B64.Geometry) (verbose : bool) out,
       B64.splitter ops_split g verbose = Ok out ->
       B64.splitter ops_split (B64.GMultiPolygon (fst out)) verbose = Ok out).
Proof.
  intros H.
  specialize (H B64.convex_split
                (B64.GPolygon [B64.rect (-1378 / 10) (-1278 / 10) 0 1]) false
                ([[B64.rect (-1378 / 10 + 360) (-1278 / 10 + 360) 0 1]], [])).
  assert (B64.splitter B64.convex_split
            (B64.GPolygon [B64.rect (-1378 / 10) (-1278 / 10) 0 1]) false
          = Ok ([[B64.rect (-1378 / 10 + 360) (-1278 / 10 + 360) 0 1]], [])) as H1
    by (vm_compute; reflexivity).
  specialize (H H1).
  apply (f_equal (fun r => match r with
                           | Ok (((c :: _) :: _) :: _, _) => Prim2SF (fst c)
                           | _ => S754_nan
                           end)) in H.
  vm_compute in H. discriminate.
Qed.

(** ** The ring loop over binary64, lines 74-102 *)

Lemma b64_unwrap_tail_shape (validate : bool) (lon_prev minx maxx : float) (n : nat)
    (rest out : B64.Ring) (b : float * float) (n' : nat) :
  B64.unwrap_tail validate lon_prev minx maxx n rest = Ok (out, b, n') ->
  Forall2 B64.one_turn rest out /\ (n' <= n + length rest)%nat.
Proof.
  revert lon_prev minx maxx n out b n'.
  induction rest as [|[lon lat] tl IH]; intros lon_prev minx maxx n out b n' H.
  - injection H as <- <- <-. split; [constructor | simpl; lia].
  - cbn [B64.unwrap_tail] in H. bind_inv H. bind_inv H. destruct r0 as [[t bb] m].
    injection H as <- <- <-. apply IH in Hr0 as [Hall Hle].
    split; [|destruct r; simpl in *; lia].
    constructor; [|exact Hall]. split; [reflexivity|]. cbn [fst].
    destruct r; [|left; reflexivity].
    unfold B64.copysign1. destruct (get_sign _); [right; right | right; left]; reflexivity.
Qed.

(** X5. Over binary64, the inner loop keeps the number of vertices and
    every latitude, leaves each longitude or replaces it by the rounded result
    of subtracting 360 or -360 from it, and counts at most one crossing per
    vertex after the first. *)
Theorem unwrap_ring_one_turn_binary64 (validate : bool) (first : B64.Coord)
    (rest r : B64.Ring) (b : float * float) (n : nat) :
  B64.unwrap_ring validate first rest = Ok (r, b, n) ->
  length r = length (first :: rest)
  /\ Forall2 B64.one_turn (first :: rest) r
  /\ (n <= length rest)%nat.
Proof.
  intros H. unfold B64.unwrap_ring in H. bind_inv H. destruct r0 as [[t bb] m].
  injection H as <- <- <-. apply b64_unwrap_tail_shape in Hr as [Hall Hn].
  split; [|split; [|exact Hn]].
  - simpl. f_equal. symmetry. eapply Forall2_length, Hall.
  - constructor; [|exact Hall]. split; [reflexivity | left; reflexivity].
Qed.

Lemma unwrap_ring_one_turn_binary64_witness :
  length [(179, 0); (181, 0); (181, 1); (179, 1); (179, 0)]%float
  = length B64.example_ring
  /\ Forall2 B64.one_turn B64.example_ring
       [(179, 0); (181, 0); (181, 1); (179, 1); (179, 0)]%float
  /\ (2 <= 4)%nat.
Proof.
  apply (unwrap_ring_one_turn_binary64 false (179, 0)%float
           [(-179, 0); (-179, 1); (179, 1); (179, 0)]%float _ (179, 181)%float 2).
  vm_compute. reflexivity.
Defined.

Lemma b64_normalize_ring_shape (validate : bool) (i : nat) (ring h : B64.Ring)
    (st st1 : B64.split_state) :
  B64.normalize_ring validate i ring st = Ok (h, st1) -> map snd h = map snd ring.
Proof.
  destruct ring as [|first rest]; [intros [= <- <-]; reflexivity|].
  unfold B64.normalize_ring. intros H.
  apply bind_Ok in H as ([[u b] n] & Hunwrap & H).
  apply bind_Ok in H as ([[h' hb] sh] & Hr0 & H). injection H as <- _.
  assert (map snd u = map snd (first :: rest)) as Hu.
  { unfold B64.unwrap_ring in Hunwrap.
    apply bind_Ok in Hunwrap as ([[t bb] m] & Htail & Hunwrap).
    injection Hunwrap as <- _ _. apply b64_unwrap_tail_shape in Htail as [Hall _].
    cbn [map]. f_equal. clear -Hall.
    induction Hall as [|c c' l l' [Hc _] _ IH]; [reflexivity|].
    cbn [map]. rewrite Hc, IH. reflexivity. }
  unfold B64.align in Hr0. destruct b as [mn mx].
  destruct (Nat.eqb i 0); [injection Hr0 as <- _ _; exact Hu|].
  destruct (B64.shell_x st) as [[smin smax]|]; [|discriminate].
  destruct (mn <? smin)%float.
  { injection Hr0 as <- _ _. rewrite map_map. cbn [snd]. exact Hu. }
  destruct (smax <? mx)%float.
  { injection Hr0 as <- _ _. rewrite map_map. cbn [snd]. exact Hu. }
  injection Hr0 as <- _ _. exact Hu.
Qed.

(** X8. Over binary64, the coordinates the ring loop produces have the
    shape of the input: as many rings, as many vertices in each ring, and the
    same latitudes; only longitudes are ever rewritten. *)
Theorem normalize_rings_shape_binary64 (validate : bool) (i : nat)
    (p coords : B64.Polygon) (st st' : B64.split_state) :
  B64.normalize_rings validate i p st = Ok (coords, st') ->
  Forall2 (fun ring ring' => map snd ring' = map snd ring) p coords.
Proof.
  revert i st coords. induction p as [|ring tl IH]; intros i st coords H.
  - injection H as <- <-. constructor.
  - cbn [B64.normalize_rings] in H. bind_inv H. destruct r as [h st1].
    bind_inv H. destruct r as [tl' st2]. injection H as <- <-.
    constructor; [eapply b64_normalize_ring_shape, Hr | eapply IH, Hr0].
Qed.

Lemma normalize_rings_shape_binary64_witness :
  Forall2 (fun ring ring' : B64.Ring => map snd ring' = map snd ring)
    [B64.example_ring; B64.rect (-178) (-175) 0 1]
    [[(179, 0); (181, 0); (181, 1); (179, 1); (179, 0)]%float; B64.rect 182 185 0 1].
Proof.
  apply (normalize_rings_shape_binary64 false 0 _ _ B64.initial_state
           {| B64.shell_x := Some (179, 181)%float;
              B64.split_meridians := {[ 180%Z ]} |}).
  vm_compute. reflexivity.
Defined.

(** ** What [validate] rejects, over binary64 *)

Lemma b64_check_crossing_validate (lon1 lon2 thr : float) :
  B64.check_crossing lon1 lon2 true thr = Raise ValueError_longitudes
  \/ B64.check_crossing lon1 lon2 true thr = B64.check_crossing lon1 lon2 false thr.
Proof.
  unfold B64.check_crossing. cbn [andb]. destruct (existsb _ _); auto.
Qed.

Lemma b64_unwrap_tail_length (validate : bool) (lon_prev minx maxx : float) (n : nat)
    (rest out : B64.Ring) (b : float * float) (n' : nat) :
  B64.unwrap_tail validate lon_prev minx maxx n rest = Ok (out, b, n') ->
  length out = length rest.
Proof.
  intros H. apply b64_unwrap_tail_shape in H as [Hall _].
  symmetry. eapply Forall2_length, Hall.
Qed.

Lemma b64_unwrap_tail_rejects (rest : B64.Ring) :
  forall (lon_prev minx maxx : float) (n : nat) (out : B64.Ring) (b : float * float)
         (n' : nat),
    B64.unwrap_tail false lon_prev minx maxx n rest = Ok (out, b, n') ->
    ((180 <? abs lon_prev)%float = true /\ rest <> [])
    \/ (exists pre v w post,
          out = pre ++ v :: w :: post /\ (180 <? abs (fst v))%float = true) ->
    B64.unwrap_tail true lon_prev minx maxx n rest = Raise ValueError_longitudes.
Proof.
  induction rest as [|[lon lat] tl IH]; intros lon_prev minx maxx n out b n' H Hcase.
  - injection H as <- <- <-. destruct Hcase as [[_ Hne]|(pre & v & w & post & Hout & _)].
    + congruence.
    + destruct pre; discriminate.
  - cbn [B64.unwrap_tail] in *.
    destruct (b64_check_crossing_validate lon lon_prev 180) as [-> | Hsame];
      [reflexivity|].
    rewrite Hsame.
    apply bind_Ok in H as (crossed & Hc & H). rewrite Hc. simpl.
    apply bind_Ok in H as ([[t bb] m] & Ht & H). injection H as <- <- <-.
    match type of Ht with
    | B64.unwrap_tail false ?x ?mn ?mx ?k tl = _ =>
        assert (B64.unwrap_tail true x mn mx k tl = Raise ValueError_longitudes) as ->;
        [|reflexivity]
    end.
    eapply IH; [exact Ht|].
    destruct Hcase as [[Hprev _]|(pre & v & w & post & Hout & Hv)].
    + exfalso. unfold B64.check_crossing in Hsame. cbn [andb existsb] in Hsame.
      rewrite Hprev, orb_true_r in Hsame. cbn [orb] in Hsame. discriminate.
    + destruct pre as [|c0 pre].
      * cbn [app] in Hout. injection Hout as <- ->. left. split; [exact Hv|].
        apply b64_unwrap_tail_length in Ht. destruct tl; [discriminate | discriminate].
      * cbn [app] in Hout. injection Hout as _ ->. right. eauto 6.
Qed.

(** X13. Over binary64, validation rejects what the splitter is for: when
    the unwrapped shell, as the splitter computes it without [validate], has a
    vertex beyond 180 degrees either way that is not its last vertex, the
    splitter under [validate] raises the validation error, whatever the
    longitudes of the input: the shifted vertex is what the next check is
    given as previous longitude. *)
Theorem validate_rejects_unwrapped_binary64
    (ops_split : B64.Polygon -> float -> option B64.GeometryCollection)
    (first : B64.Coord) (rest r : B64.Ring) (b : float * float) (n : nat)
    (pre : B64.Ring) (v w : B64.Coord) (post : B64.Ring) (holes : list B64.Ring) :
  B64.unwrap_ring false first rest = Ok (r, b, n) ->
  r = pre ++ v :: w :: post ->
  (180 <? abs (fst v))%float = true ->
  B64.split_polygon ops_split ((first :: rest) :: holes) true
  = Raise ValueError_longitudes.
Proof.
  intros Hu Hr Hv. unfold B64.unwrap_ring in Hu.
  apply bind_Ok in Hu as ([[t bb] m] & Ht & Hu). injection Hu as <- <- <-.
  assert (B64.unwrap_tail true (fst first) (fst first) (fst first) 0 rest
          = Raise ValueError_longitudes) as Htrue.
  { eapply b64_unwrap_tail_rejects; [exact Ht|].
    destruct pre as [|c0 pre]; cbn [app] in Hr.
    - injection Hr as <- ->. left. split; [exact Hv|].
      apply b64_unwrap_tail_length in Ht. destruct rest; discriminate.
    - injection Hr as _ ->. right. eauto 6. }
  unfold B64.split_polygon. cbn [B64.normalize_rings B64.normalize_ring].
  unfold B64.unwrap_ring. rewrite Htrue. reflexivity.
Qed.

Lemma validate_rejects_unwrapped_binary64_witness :
  B64.split_polygon B64.convex_split [B64.example_ring] true
  = Raise ValueError_longitudes.
Proof.
  apply (validate_rejects_unwrapped_binary64 B64.convex_split (179, 0)%float
           [(-179, 0); (-179, 1); (179, 1); (179, 0)]%float
           [(179, 0); (181, 0); (181, 1); (179, 1); (179, 0)]%float (179, 181)%float 2
           [(179, 0)]%float (181, 0)%float (181, 1)%float [(179, 1); (179, 0)]%float []).
  - vm_compute. reflexivity.
  - reflexivity.
  - vm_compute. reflexivity.
Defined.

(** ** [wrap_polygons] over binary64: what it returns *)

Lemma b64_wrap_polygons_cases (gc : B64.GeometryCollection) (verbose : bool) :
  (fst (B64.wrap_polygons gc verbose) = gc
   /\ B64.difference_ltb (B64.difference (B64.collection_bounds (B64.transformed gc)))
        (B64.difference (B64.collection_bounds gc)) = false)
  \/ (fst (B64.wrap_polygons gc verbose) = B64.transformed gc
      /\ B64.difference_ltb (B64.difference (B64.collection_bounds (B64.transformed gc)))
           (B64.difference (B64.collection_bounds gc)) = true).
Proof.
  unfold B64.wrap_polygons. destruct (B64.difference_ltb _ _); auto.
Qed.

(** X17. Over binary64, the footprint optimizer returns a collection with
    as many fragments as its input and never a wider one: the width of the
    bounding box of the input is not below that of the result; [verbose]
    changes what is printed only, and nothing is printed without it. *)
Theorem wrap_polygons_never_wider_binary64 (gc : B64.GeometryCollection)
    (verbose : bool) :
  length (fst (B64.wrap_polygons gc verbose)) = length gc
  /\ (List.filter B64.has_shell gc <> [] ->
      exists b b',
        B64.collection_frame gc b
        /\ B64.collection_frame (fst (B64.wrap_polygons gc verbose)) b'
        /\ (snd b - fst b <? snd b' - fst b')%float = false)
  /\ fst (B64.wrap_polygons gc verbose) = fst (B64.wrap_polygons gc (negb verbose))
  /\ snd (B64.wrap_polygons gc false) = [].
Proof.
  pose proof (collection_bounds_frame gc) as Hg.
  pose proof (collection_bounds_frame (B64.transformed gc)) as Ht.
  destruct (b64_wrap_polygons_cases gc verbose) as [[-> Hlt]|[-> Hlt]].
  - split; [reflexivity|]. split; [|split].
    + intros Hsome. destruct (B64.collection_bounds gc) as [b|]; [|contradiction].
      exists b, b. split; [exact Hg|]. split; [exact Hg | apply ltb_irrefl].
    + unfold B64.wrap_polygons. rewrite Hlt. reflexivity.
    + unfold B64.wrap_polygons. destruct (B64.difference_ltb _ _); reflexivity.
  - split; [apply length_map|]. split; [|split].
    + intros _. destruct (B64.collection_bounds gc) as [[a1 a2]|];
        destruct (B64.collection_bounds (B64.transformed gc)) as [[t1 t2]|];
        try discriminate.
      exists (a1, a2), (t1, t2). split; [exact Hg|]. split; [exact Ht|].
      cbn in Hlt |- *. apply ltb_asym, Hlt.
    + unfold B64.wrap_polygons. rewrite Hlt. reflexivity.
    + unfold B64.wrap_polygons. destruct (B64.difference_ltb _ _); reflexivity.
Qed.

(** X18. Over binary64, a collection in which no fragment has its least
    shell longitude below zero is returned unchanged by the optimizer, and
    nothing is printed. *)
Theorem wrap_polygons_eastern_binary64 (gc : B64.GeometryCollection) (verbose : bool) :
  Forall (fun p => forall m, B64.least (B64.shell_lons p) m -> (m <? 0)%float = false) gc ->
  B64.wrap_polygons gc verbose = (gc, []).
Proof.
  intros H.
  assert (B64.transformed gc = gc) as Ht.
  { induction H as [|p tl Hp _ IH]; [reflexivity|].
    cbn [B64.transformed map]. fold (B64.transformed tl). rewrite IH. f_equal.
    unfold B64.wrap_polygon. destruct (B64.bounds p) as [[mn mx]|] eqn:Eb; [|reflexivity].
    destruct (bounds_frame p _ Eb) as [[Hl _] _]. rewrite (Hp mn Hl). reflexivity. }
  unfold B64.wrap_polygons. rewrite Ht.
  destruct (B64.difference (B64.collection_bounds gc)) as [w|]; [|reflexivity].
  cbn. rewrite ltb_irrefl. reflexivity.
Qed.

Lemma wrap_polygons_eastern_binary64_witness :
  B64.wrap_polygons [[B64.rect 10 20 0 1]; [B64.rect 170 180 0 1]] true
  = ([[B64.rect 10 20 0 1]; [B64.rect 170 180 0 1]], []).
Proof.
  apply wrap_polygons_eastern_binary64.
  repeat constructor; intros m [Hin _]; cbn in Hin;
    repeat (destruct Hin as [<-|Hin]; [vm_compute; reflexivity|]); destruct Hin.
Defined.

(** For fragments west of zero no such statement holds: a fragment alone
    in its collection is moved by the optimizer when rounding makes the moved
    fragment narrower. *)
Remark lone_western_fragment_wrapped :
  B64.wrap_polygons [[B64.rect (-1378 / 10) (-1278 / 10) 0 1]] true
  = ([[B64.rect (-1378 / 10 + 360) (-1278 / 10 + 360) 0 1]],
     ["Wrapped polygons to reduce footprint"%string]).
Proof. vm_compute. reflexivity. Qed.
